(** * time-tracker: aggregation, pie layout, hit testing and timer session

    A shallow embedding of [src/app/time-tracker/time-tracker-client.tsx]
    (and of the variant of the same component kept in [src/unnamed/part_001]).

    Conventions of the embedding:
    - [seconds], identifiers and millisecond timestamps are integers ([Z]);
      the table column is [INTEGER], and sums of such values are exact in a
      JavaScript number far beyond any list the page can load;
    - angles and canvas coordinates are real numbers ([R]): the arithmetic of
      the layout and of the hit tester is read over exact reals, which is the
      idealisation the phrase "within floating-point tolerance" refers to;
    - text is [string]; [toLowerCase] and [trim] act on the ASCII range;
    - a JavaScript [Map] is an association list in insertion order;
    - React state is a record, threaded explicitly; the storage backend is an
      oracle whose answers are arguments of the handlers, and every externally
      visible action is logged as an [Effect]. *)

From Stdlib Require Import ZArith List String Ascii Bool Lia Permutation.
From Stdlib Require Import Reals Lra.
From Stdlib Require Import DecimalString DecimalPos DecimalZ.
Import ListNotations.

Local Open Scope string_scope.
Local Open Scope list_scope.
Local Open Scope Z_scope.

(** ** JavaScript primitives used by the component *)

Module JS.

(** [String.prototype.toLowerCase], on ASCII text. *)
Definition lower_ascii (c : ascii) : ascii :=
  let n := nat_of_ascii c in
  if (65 <=? n)%nat && (n <=? 90)%nat then ascii_of_nat (n + 32) else c.

Fixpoint toLowerCase (s : string) : string :=
  match s with
  | EmptyString => EmptyString
  | String c t => String (lower_ascii c) (toLowerCase t)
  end.

(** White space removed by [String.prototype.trim] (ASCII range):
    tab, line feed, vertical tab, form feed, carriage return, space. *)
Definition is_space (c : ascii) : bool :=
  let n := nat_of_ascii c in
  ((9 <=? n)%nat && (n <=? 13)%nat) || (n =? 32)%nat.

Fixpoint trimStart (s : string) : string :=
  match s with
  | EmptyString => EmptyString
  | String c t => if is_space c then trimStart t else s
  end.

(** Drops the trailing white space: a character is kept when something
    other than white space follows or when it is not white space itself. *)
Fixpoint trimEnd (s : string) : string :=
  match s with
  | EmptyString => EmptyString
  | String c t =>
      match trimEnd t with
      | EmptyString => if is_space c then EmptyString else String c EmptyString
      | r => String c r
      end
  end.

Definition trim (s : string) : string := trimEnd (trimStart s).

(** Truthiness of a string: the empty string is the only falsy one. *)
Definition truthy (s : string) : bool :=
  match s with EmptyString => false | _ => true end.

(** [String(n)] for an integer-valued number. *)
Definition String_of (n : Z) : string := NilZero.string_of_int (Z.to_int n).

Fixpoint repeat_to (n : nat) (pad cur : string) : string :=
  match n with
  | O => EmptyString
  | S n' =>
      match cur with
      | EmptyString =>
          match pad with
          | EmptyString => EmptyString
          | String c t => String c (repeat_to n' pad t)
          end
      | String c t => String c (repeat_to n' pad t)
      end
  end.

(** [s.padStart(targetLength, padString)]: the pad string is repeated and
    cut to fill the missing length; a string already long enough is
    returned as it is. *)
Definition padStart (targetLength : nat) (padString : string) (s : string) : string :=
  if (targetLength <=? String.length s)%nat then s
  else (repeat_to (targetLength - String.length s) padString padString ++ s)%string.

(** [Math.floor(a / b)] for integers and a positive divisor is [a / b] on
    [Z]; the remainder operator [%] takes the sign of the dividend. *)
Definition floor_div (a b : Z) : Z := a / b.
Definition rem (a b : Z) : Z := Z.rem a b.

(** [a || d] on a possibly missing number: [undefined] and [0] are falsy. *)
Definition or_default (a : option Z) (d : Z) : Z :=
  match a with
  | Some v => if v =? 0 then d else v
  | None => d
  end.

(** [a ?? d]: only [null] and [undefined] select the right operand. *)
Definition nullish {A : Type} (a : option A) (d : A) : A :=
  match a with
  | Some v => v
  | None => d
  end.

End JS.

(** ** Data model *)

Record TimeEntry : Type := mkTimeEntry {
  te_id : Z;
  te_category : string;
  te_seconds : Z;
  te_user_id : string;
  te_created_at : string;
  te_color : string
}.

Record AggregatedEntry : Type := mkAggregatedEntry {
  name : string;
  seconds : Z;
  color : string
}.

Definition colors : list string :=
  [ "#667eea"; "#764ba2"; "#f093fb"; "#4facfe"; "#43e97b"; "#fa709a";
    "#fee140"; "#30cfd0"; "#a8edea"; "#fed6e3"; "#c471f5"; "#12c2e9" ].

(** ** Insertion-ordered map ([new Map<string, number>()]) *)

Module OrderedMap.

Definition t : Type := list (string * Z).

Definition empty : t := [].

Fixpoint get (k : string) (m : t) : option Z :=
  match m with
  | [] => None
  | (k', v) :: m' => if String.eqb k k' then Some v else get k m'
  end.

(** [set] keeps the position of a key already present and appends a new
    key at the end. *)
Fixpoint set (k : string) (v : Z) (m : t) : t :=
  match m with
  | [] => [(k, v)]
  | (k', v') :: m' =>
      if String.eqb k k' then (k', v) :: m' else (k', v') :: set k v m'
  end.

Definition keys (m : t) : list string := map fst m.

Definition mem (k : string) (ks : list string) : bool :=
  existsb (String.eqb k) ks.

End OrderedMap.

(** ** Category aggregator *)

Definition aggregate_step (aggregated : OrderedMap.t) (entry : TimeEntry) : OrderedMap.t :=
  let categoryLower := JS.toLowerCase (te_category entry) in
  let current := JS.or_default (OrderedMap.get categoryLower aggregated) 0 in
  OrderedMap.set categoryLower (current + te_seconds entry) aggregated.

Definition tally (dbEntries : list TimeEntry) : OrderedMap.t :=
  fold_left aggregate_step dbEntries OrderedMap.empty.

(** One turn of the second [forEach]: push a record and bump [colorIndex]. *)
Definition emit_step (acc : list AggregatedEntry * nat) (kv : string * Z)
  : list AggregatedEntry * nat :=
  let '(result, colorIndex) := acc in
  (result ++ [ {| name := fst kv;
                  seconds := snd kv;
                  color := nth (colorIndex mod List.length colors) colors "" |} ],
   S colorIndex).

Definition aggregateEntries (dbEntries : list TimeEntry) : list AggregatedEntry :=
  fst (fold_left emit_step (tally dbEntries) ([], O)).

(** Sums used to state the aggregation properties. *)
Definition sum_entry_seconds (l : list TimeEntry) : Z :=
  fold_right (fun e acc => te_seconds e + acc) 0 l.

Definition sum_seconds (l : list AggregatedEntry) : Z :=
  fold_right (fun e acc => seconds e + acc) 0 l.

(** The input entries whose lowercased category is [k]. *)
Definition entries_of (k : string) (l : list TimeEntry) : list TimeEntry :=
  filter (fun e => String.eqb (JS.toLowerCase (te_category e)) k) l.

(** Order of first appearance: each element once, at its first position. *)
Fixpoint first_seen (l : list string) : list string :=
  match l with
  | [] => []
  | x :: t => x :: filter (fun y => negb (String.eqb y x)) (first_seen t)
  end.

(** ** formatTime *)

Definition formatTime (secondsArg : Z) : string :=
  let hours := JS.floor_div secondsArg 3600 in
  let minutes := JS.floor_div (JS.rem secondsArg 3600) 60 in
  let secs := JS.rem secondsArg 60 in
  (JS.padStart 2 "0" (JS.String_of hours) ++ ":" ++
   JS.padStart 2 "0" (JS.String_of minutes) ++ ":" ++
   JS.padStart 2 "0" (JS.String_of secs))%string.

(** A two-column decimal field: one leading zero below ten, the plain
    decimal numeral from ten on. *)
Definition digit (d : Z) : ascii := ascii_of_nat (48 + Z.to_nat d).

Definition field2 (n : Z) : string :=
  if n <? 10 then String "0" (String (digit n) EmptyString)
  else JS.String_of n.

(** ** Pie layout *)

Local Open Scope R_scope.

Record Slice : Type := mkSlice {
  startAngle : R;
  endAngle : R;
  slice_name : string;
  slice_seconds : Z;
  (** the number handed to [toFixed(1)]; its decimal rendering is not modelled *)
  percentage : R
}.

Record Canvas : Type := mkCanvas {
  width : R;
  height : R;
  (** [getBoundingClientRect()] of the canvas *)
  rect_left : R;
  rect_top : R
}.

Definition centerX (c : Canvas) : R := width c / 2.
Definition centerY (c : Canvas) : R := height c / 2.
Definition radius (c : Canvas) : R := Rmin (centerX c) (centerY c) - 20.

(** [entries.reduce((sum, entry) => sum + entry.seconds, 0)] *)
Definition total_seconds (l : list AggregatedEntry) : Z :=
  fold_left (fun sum entry => (sum + seconds entry)%Z) l 0%Z.

(** [(entry.seconds / total) * 2 * Math.PI], for a total other than zero;
    with a zero total the code's quotient is not a number, and the value of
    this term says nothing about it. *)
Definition sliceAngle (total : R) (entry : AggregatedEntry) : R :=
  (IZR (seconds entry) / total) * 2 * PI.

(** One turn of the drawing loop, as far as [currentAngle] and [newSlices]
    are concerned (the painting calls do not feed back into them). *)
Definition layout_step (total : R) (acc : R * list Slice) (entry : AggregatedEntry)
  : R * list Slice :=
  let '(currentAngle, newSlices) := acc in
  (currentAngle + sliceAngle total entry,
   newSlices ++ [ {| startAngle := currentAngle;
                     endAngle := currentAngle + sliceAngle total entry;
                     slice_name := name entry;
                     slice_seconds := seconds entry;
                     percentage := (IZR (seconds entry) / total) * 100 |} ]).

Definition buildSlices (entries : list AggregatedEntry) : list Slice :=
  let total := IZR (total_seconds entries) in
  snd (fold_left (layout_step total) entries (- PI / 2, [])).

(** What a call of [renderPieChart] ends in. *)
Inductive RenderOutcome : Type :=
| NotRendered                              (* no canvas, or no 2d context *)
| Placeholder (c : Canvas)                 (* "No data to display" *)
| Painted (c : Canvas) (total : R) (newSlices : list Slice).

(** [canvas.parentElement?.offsetWidth || 500] *)
Definition width_or_500 (offsetWidth : option R) : R :=
  match offsetWidth with
  | Some w => if Req_dec_T w 0 then 500 else w
  | None => 500
  end.

Definition renderPieChart (canvas : option Canvas) (has_ctx : bool)
  (offsetWidth : option R) (entries : list AggregatedEntry) : RenderOutcome :=
  match canvas with
  | None => NotRendered
  | Some c =>
      if negb has_ctx then NotRendered
      else
        let w := width_or_500 offsetWidth in
        let c' := {| width := w; height := w;
                     rect_left := rect_left c; rect_top := rect_top c |} in
        if Nat.eqb (List.length entries) 0 then Placeholder c'
        else Painted c' (IZR (total_seconds entries)) (buildSlices entries)
  end.

(** ** Hit tester *)

Definition Rltb (a b : R) : bool := if Rlt_dec a b then true else false.
Definition Rleb (a b : R) : bool := if Rle_dec a b then true else false.
Definition Rgtb (a b : R) : bool := Rltb b a.
Definition Rgeb (a b : R) : bool := Rleb b a.

(** [Math.atan2(y, x)], with value in (-PI, PI]. *)
Definition atan2 (y x : R) : R :=
  if Rlt_dec 0 x then atan (y / x)
  else if Rlt_dec x 0 then
         (if Rle_dec 0 y then atan (y / x) + PI else atan (y / x) - PI)
  else if Rlt_dec 0 y then PI / 2
  else if Rlt_dec y 0 then - PI / 2
  else 0.

(** [if (a < 0) a += 2 * Math.PI] *)
Definition normalize (a : R) : R := if Rltb a 0 then a + 2 * PI else a.

Definition mouseX (c : Canvas) (x : R) : R := x - rect_left c.
Definition mouseY (c : Canvas) (y : R) : R := y - rect_top c.

Definition distance (c : Canvas) (x y : R) : R :=
  let dx := mouseX c x - centerX c in
  let dy := mouseY c y - centerY c in
  sqrt (dx * dx + dy * dy).

Definition pointerAngle (c : Canvas) (x y : R) : R :=
  let dx := mouseX c x - centerX c in
  let dy := mouseY c y - centerY c in
  normalize (atan2 dy dx + PI / 2).

Section HitTester.

(** The test of the branch [end < start]; the two copies of the component
    differ in it. Arguments: [angle], [start], [end]. *)
Variable wrap_test : R -> R -> R -> bool.

Definition slice_matches (angle : R) (slice : Slice) : bool :=
  let start := normalize (startAngle slice) in
  let end_ := normalize (endAngle slice) in
  if Rltb end_ start then wrap_test angle start end_
  else Rgeb angle start && Rleb angle end_.

(** [for (const slice of slices) { if (...) return slice; } return null] *)
Definition scan (angle : R) (slices : list Slice) : option Slice :=
  find (slice_matches angle) slices.

Definition hit_test (canvas : option Canvas) (slices : list Slice) (x y : R)
  : option Slice :=
  match canvas with
  | None => None
  | Some c =>
      if Nat.eqb (List.length slices) 0 then None
      else if Rgtb (distance c x y) (radius c) then None
      else scan (pointerAngle c x y) slices
  end.

End HitTester.

(** [angle >= start || angle <= end]
    (src/app/time-tracker/time-tracker-client.tsx) *)
Definition wrap_or (angle start end_ : R) : bool :=
  Rgeb angle start || Rleb angle end_.

Definition getSliceAtPosition : option Canvas -> list Slice -> R -> R -> option Slice :=
  hit_test wrap_or.

Module Part001.

(** [angle >= start ?? angle <= end] (src/unnamed/part_001): the comparison
    binds tighter than [??], and its value is a boolean, never nullish. *)
Definition wrap_nullish (angle start end_ : R) : bool :=
  JS.nullish (Some (Rgeb angle start)) (Rleb angle end_).

Definition getSliceAtPosition : option Canvas -> list Slice -> R -> R -> option Slice :=
  hit_test wrap_nullish.

End Part001.

Local Close Scope R_scope.

(** ** Timer session and storage handlers *)

Module Timer.

Record State : Type := mkState {
  entries : list AggregatedEntry;
  allEntries : list TimeEntry;
  category : string;
  isRunning : bool;
  elapsedSeconds : Z;
  startTime : option Z;
  (** [intervalRef.current]: the running poll, identified by the [now] its
      callback closes over *)
  intervalRef : option Z;
  slices : list Slice
}.

Inductive Effect : Type :=
| Alert (msg : string)
| ConsoleError (msg : string)
| SetInterval (now : Z) (delay : Z)
| ClearInterval (handle : Z)
| Insert (user_id cat : string) (secs : Z) (col : string)
| Delete (id : Z) (user_id : string)
| SelectAll (user_id : string).

Definition set_isRunning (b : bool) (st : State) : State :=
  mkState (entries st) (allEntries st) (category st) b
          (elapsedSeconds st) (startTime st) (intervalRef st) (slices st).

Definition set_elapsedSeconds (n : Z) (st : State) : State :=
  mkState (entries st) (allEntries st) (category st) (isRunning st)
          n (startTime st) (intervalRef st) (slices st).

Definition set_startTime (t : option Z) (st : State) : State :=
  mkState (entries st) (allEntries st) (category st) (isRunning st)
          (elapsedSeconds st) t (intervalRef st) (slices st).

Definition set_intervalRef (h : option Z) (st : State) : State :=
  mkState (entries st) (allEntries st) (category st) (isRunning st)
          (elapsedSeconds st) (startTime st) h (slices st).

Definition set_category (c : string) (st : State) : State :=
  mkState (entries st) (allEntries st) c (isRunning st)
          (elapsedSeconds st) (startTime st) (intervalRef st) (slices st).

(** [setAllEntries(u); setEntries(aggregateEntries(u))] *)
Definition set_fetched (u : list TimeEntry) (st : State) : State :=
  mkState (aggregateEntries u) u (category st) (isRunning st)
          (elapsedSeconds st) (startTime st) (intervalRef st) (slices st).

(** [startTimer], called at clock reading [now] (milliseconds). *)
Definition startTimer (st : State) (now : Z) : State * list Effect :=
  if negb (JS.truthy (JS.trim (category st))) then
    (st, [Alert "Please enter a task name!"])
  else
    (set_intervalRef (Some now)
       (set_isRunning true (set_elapsedSeconds 0 (set_startTime (Some now) st))),
     [SetInterval now 1000]).

(** The callback handed to [setInterval], fired at clock reading
    [currentTime]; [now] is the value captured by [startTimer]. *)
Definition poll (now : Z) (st : State) (currentTime : Z) : State :=
  let elapsed := JS.floor_div (currentTime - now) 1000 in
  set_elapsedSeconds elapsed st.

(** A firing of the timer subsystem: nothing runs once the interval is
    cleared. *)
Definition tick (st : State) (currentTime : Z) : State :=
  match intervalRef st with
  | Some now => poll now st currentTime
  | None => st
  end.

(** Answers of the storage backend. *)
Definition fetch (updatedEntries : option (list TimeEntry)) (st : State) : State :=
  match updatedEntries with
  | Some u => set_fetched u st
  | None => st
  end.

(** [stopTimer]. [rnd] is [Math.floor(Math.random() * colors.length)];
    [insert_error] is the [error] of the insert and [updatedEntries] the
    [data] of the select that follows a successful insert. *)
Definition stopTimer (userId : string) (st : State) (rnd : nat)
  (insert_error : option string) (updatedEntries : option (list TimeEntry))
  : State * list Effect :=
  let '(st1, eff1) :=
    match intervalRef st with
    | Some h => (set_intervalRef None st, [ClearInterval h])
    | None => (st, [])
    end in
  let st2 := set_isRunning false st1 in
  let entryColor := nth rnd colors "" in
  let eff2 := eff1 ++ [Insert userId (JS.trim (category st)) (elapsedSeconds st) entryColor] in
  match insert_error with
  | Some err =>
      (st2, eff2 ++ [ConsoleError "Error saving time entry:"; Alert "Failed to save time entry"])
  | None =>
      let st3 := fetch updatedEntries st2 in
      (set_startTime None (set_elapsedSeconds 0 (set_category "" st3)),
       eff2 ++ [SelectAll userId])
  end.

(** [deleteEntry(id)]. *)
Definition deleteEntry (userId : string) (st : State) (id : Z)
  (delete_error : option string) (updatedEntries : option (list TimeEntry))
  : State * list Effect :=
  match delete_error with
  | Some err =>
      (st, [Delete id userId;
            ConsoleError "Error deleting time entry:"; Alert "Failed to delete time entry"])
  | None =>
      (fetch updatedEntries st, [Delete id userId; SelectAll userId])
  end.




(** Sample sessions: idle with blanks typed, idle with a task typed, and
    running with five seconds on the clock. *)
Definition idle_blank : State :=
  mkState [] [] "   " false 0 None None [].

Definition idle_typed : State :=
  mkState [] [] " write report " false 0 None None [].

Definition running_session : State :=
  mkState [] [] "work" true 5 (Some 1000) (Some 1000) [].

End Timer.

(** ** Auxiliary definitions for the proofs *)

Definition lowcat (e : TimeEntry) : string := JS.toLowerCase (te_category e).

Definition sum_values (m : OrderedMap.t) : Z :=
  fold_right (fun kv acc => snd kv + acc) 0 m.

(** The records emitted for a map, the first one with colour index [i]. *)
Fixpoint emit_from (i : nat) (m : OrderedMap.t) : list AggregatedEntry :=
  match m with
  | [] => []
  | kv :: m' =>
      {| name := fst kv; seconds := snd kv;
         color := nth (i mod List.length colors) colors "" |} :: emit_from (S i) m'
  end.

(** The slices laid out from angle [cur] on, by structural recursion. *)
Fixpoint layout_from (total cur : R) (l : list AggregatedEntry) : list Slice :=
  match l with
  | [] => []
  | entry :: l' =>
      {| startAngle := cur;
         endAngle := (cur + sliceAngle total entry)%R;
         slice_name := name entry;
         slice_seconds := seconds entry;
         percentage := (IZR (seconds entry) / total * 100)%R |}
      :: layout_from total (cur + sliceAngle total entry)%R l'
  end.

Definition angle_sum (total : R) (l : list AggregatedEntry) : R :=
  fold_right (fun e acc => (sliceAngle total e + acc)%R) 0%R l.

Definition slice_width (s : Slice) : R := (endAngle s - startAngle s)%R.

Definition sum_widths (l : list Slice) : R :=
  fold_right (fun s acc => (slice_width s + acc)%R) 0%R l.

(** Sample inputs: a 200 x 200 canvas at the origin of the viewport (centre
    (100, 100), radius 80), two categories of equal weight, one category
    alone, and one category with no seconds at all. *)
Definition canvas200 : Canvas :=
  {| width := 200; height := 200; rect_left := 0; rect_top := 0 |}.

Definition two_equal : list AggregatedEntry :=
  [ mkAggregatedEntry "a" 1 "#667eea"; mkAggregatedEntry "b" 1 "#764ba2" ].

Definition one_category : list AggregatedEntry :=
  [ mkAggregatedEntry "a" 10 "#667eea" ].

Definition zero_seconds : list AggregatedEntry :=
  [ mkAggregatedEntry "a" 0 "#667eea" ].

Definition slice_a : Slice :=
  {| startAngle := (- PI / 2)%R; endAngle := (- PI / 2 + 1 / 2 * 2 * PI)%R;
     slice_name := "a"; slice_seconds := 1; percentage := (1 / 2 * 100)%R |}.

Definition slice_b : Slice :=
  {| startAngle := (- PI / 2 + 1 / 2 * 2 * PI)%R;
     endAngle := (- PI / 2 + 1 / 2 * 2 * PI + 1 / 2 * 2 * PI)%R;
     slice_name := "b"; slice_seconds := 1; percentage := (1 / 2 * 100)%R |}.

(** ** The component as a whole: mount, events, repaint *)

Module Session.
Import Timer.

(** The state of the first render: the initial values of the [useState]
    calls. *)
Definition initial : State :=
  mkState [] [] "" false 0 None None [].

(** The mount effect:
    [setAllEntries(initialEntries); setEntries(aggregateEntries(initialEntries))]. *)
Definition mount (initialEntries : list TimeEntry) (st : State) : State :=
  set_fetched initialEntries st.

(** The clean-up of the last effect, run when the component goes away. *)
Definition unmount (st : State) : list Effect :=
  match intervalRef st with
  | Some h => [ClearInterval h]
  | None => []
  end.

Definition set_slices (l : list Slice) (st : State) : State :=
  mkState (entries st) (allEntries st) (category st) (isRunning st)
          (elapsedSeconds st) (startTime st) (intervalRef st) l.

(** The effect on [entries] (and the resize listener): [renderPieChart] calls
    [setSlices] on the painting path only; the two early returns and the
    placeholder path leave [slices] as they were. *)
Definition repaint (canvas : option Canvas) (has_ctx : bool)
  (offsetWidth : option R) (st : State) : State :=
  match renderPieChart canvas has_ctx offsetWidth (entries st) with
  | Painted _ _ newSlices => set_slices newSlices st
  | _ => st
  end.

(** What the user and the timer subsystem can do to the rendered page. *)
Inductive Event : Type :=
| TypeText (text : string)                 (* onChange of the input *)
| KeyPress (key : string) (now : Z)        (* onKeyPress of the input *)
| ClickStart (now : Z)
| ClickStop (rnd : nat) (insert_error : option string)
            (updatedEntries : option (list TimeEntry))
| ClickDelete (id : Z) (delete_error : option string)
              (updatedEntries : option (list TimeEntry))
| Fire (currentTime : Z).                  (* the interval fires *)

(** The input and the Start button carry [disabled={isRunning}], the Stop
    button [disabled={!isRunning}]: a disabled control raises no event. *)
Definition handle (userId : string) (st : State) (ev : Event) : State * list Effect :=
  match ev with
  | TypeText text =>
      if isRunning st then (st, []) else (set_category text st, [])
  | KeyPress key now =>
      if isRunning st then (st, [])
      else if String.eqb key "Enter" && negb (isRunning st) then startTimer st now
      else (st, [])
  | ClickStart now =>
      if isRunning st then (st, []) else startTimer st now
  | ClickStop rnd insert_error updatedEntries =>
      if negb (isRunning st) then (st, [])
      else stopTimer userId st rnd insert_error updatedEntries
  | ClickDelete id delete_error updatedEntries =>
      deleteEntry userId st id delete_error updatedEntries
  | Fire currentTime => (tick st currentTime, [])
  end.

Fixpoint run (userId : string) (st : State) (evs : list Event) : State * list Effect :=
  match evs with
  | [] => (st, [])
  | ev :: rest =>
      let '(st1, eff1) := handle userId st ev in
      let '(st2, eff2) := run userId st1 rest in
      (st2, eff1 ++ eff2)
  end.

(** The invariant of the page: the poll exists exactly while the session
    runs; a running session has a task name and its poll counts from the
    recorded start; the aggregated list is the aggregation of the entry
    list. *)
Definition consistent (st : State) : Prop :=
  (isRunning st = true <-> intervalRef st <> None) /\
  (isRunning st = true ->
     JS.trim (category st) <> EmptyString /\ startTime st = intervalRef st) /\
  entries st = aggregateEntries (allEntries st).

(** What a well-formed request to store an entry looks like. *)
Definition well_formed_insert (userId : string) (eff : Effect) : Prop :=
  match eff with
  | Insert u c _ _ => u = userId /\ c <> EmptyString /\ JS.trim c = c
  | _ => True
  end.

End Session.

(** ** The read-only view (first component of src/unnamed/part_002) *)

Module ReadOnly.

(** [new Map<string, string>()] *)
Definition ColorMap : Type := list (string * string).

Fixpoint cm_get (k : string) (m : ColorMap) : option string :=
  match m with
  | [] => None
  | (k', v) :: m' => if String.eqb k k' then Some v else cm_get k m'
  end.

Fixpoint cm_set (k v : string) (m : ColorMap) : ColorMap :=
  match m with
  | [] => [(k, v)]
  | (k', v') :: m' =>
      if String.eqb k k' then (k', v) :: m' else (k', v') :: cm_set k v m'
  end.

(** [aggregatedEntries.forEach((entry) => colorMap.set(entry.name, entry.color))] *)
Definition colorMap (aggregatedEntries : list AggregatedEntry) : ColorMap :=
  fold_left (fun m entry => cm_set (name entry) (color entry) m) aggregatedEntries [].

(** [colorMap.get(category.toLowerCase()) ?? "#667eea"] *)
Definition getColorForEntry (aggregatedEntries : list AggregatedEntry)
  (category : string) : string :=
  JS.nullish (cm_get (JS.toLowerCase category) (colorMap aggregatedEntries)) "#667eea".

Local Open Scope R_scope.

(** [Math.min(centerX, centerY) * 0.6] *)
Definition radius (c : Canvas) : R := Rmin (centerX c) (centerY c) * (6 / 10).

(** The leader line and the label anchor of one slice, in the second pass of
    the read-only [renderPieChart]. The side test [Math.cos(midAngle) > 0] is
    read over exact reals: where the real cosine is 0 (a leader straight
    above or below the centre) the double computed by the code is a tiny
    number of either sign, and the side taken by the code is not the one of
    this definition. *)
Record Leader : Type := mkLeader {
  edgeX : R; edgeY : R;
  lineX : R; lineY : R;
  labelX : R; labelY : R;
  isRightSide : bool
}.

Definition leader (c : Canvas) (currentAngle sliceAngle_ : R) : Leader :=
  let midAngle := currentAngle + sliceAngle_ / 2 in
  let lineExtend := radius c * (2 / 10) in
  let labelOffset := 10 in
  let right := Rgtb (cos midAngle) 0 in
  let lx := centerX c + cos midAngle * (radius c + lineExtend) in
  let ly := centerY c + sin midAngle * (radius c + lineExtend) in
  {| edgeX := centerX c + cos midAngle * radius c;
     edgeY := centerY c + sin midAngle * radius c;
     lineX := lx; lineY := ly;
     labelX := lx + (if right then labelOffset else - labelOffset);
     labelY := ly;
     isRightSide := right |}.

Definition leader_step (c : Canvas) (total : R) (acc : R * list Leader)
  (entry : AggregatedEntry) : R * list Leader :=
  let '(currentAngle, out) := acc in
  (currentAngle + sliceAngle total entry,
   out ++ [leader c currentAngle (sliceAngle total entry)]).

Definition leaders (c : Canvas) (aggregatedEntries : list AggregatedEntry) : list Leader :=
  let total := IZR (total_seconds aggregatedEntries) in
  snd (fold_left (leader_step c total) aggregatedEntries (- PI / 2, [])).

Local Close Scope R_scope.

End ReadOnly.

(** ** Further auxiliary definitions *)

(** The aggregation in closed form: one record per lowercased category, in
    order of first appearance, with the sum of its entries and the palette
    colour of its position. *)
Definition aggregate_spec (l : list TimeEntry) : list AggregatedEntry :=
  emit_from 0
    (map (fun k => (k, sum_entry_seconds (entries_of k l)))
         (first_seen (map lowcat l))).

Definition sum_percentages (l : list Slice) : R :=
  fold_right (fun s acc => (percentage s + acc)%R) 0%R l.

(** Reading a decimal field back. *)
Definition parse_field (s : string) : option Z :=
  option_map Z.of_int (NilZero.int_of_string s).

(** * Properties of the aggregator *)

Section Aggregator.

Lemma or_default_zero (o : option Z) :
  JS.or_default o 0 = match o with Some v => v | None => 0 end.
Proof.
  destruct o as [v|]; simpl; [|reflexivity].
  destruct (Z.eqb_spec v 0); congruence.
Qed.

Lemma get_set (k k' : string) (v : Z) (m : OrderedMap.t) :
  OrderedMap.get k' (OrderedMap.set k v m) =
  if String.eqb k' k then Some v else OrderedMap.get k' m.
Proof.
  induction m as [|[k0 v0] m IH]; simpl.
  - reflexivity.
  - destruct (String.eqb_spec k k0) as [->|Hk]; simpl.
    + destruct (String.eqb k' k0); reflexivity.
    + rewrite IH. destruct (String.eqb_spec k' k0) as [->|Hk'].
      * destruct (String.eqb_spec k0 k); congruence.
      * reflexivity.
Qed.

Lemma sum_values_set (k : string) (s : Z) (m : OrderedMap.t) :
  sum_values (OrderedMap.set k (JS.or_default (OrderedMap.get k m) 0 + s) m) =
  sum_values m + s.
Proof.
  rewrite or_default_zero.
  induction m as [|[k0 v0] m IH]; simpl.
  - lia.
  - destruct (String.eqb k k0); simpl; lia.
Qed.

Lemma keys_set (k : string) (v : Z) (m : OrderedMap.t) :
  OrderedMap.keys (OrderedMap.set k v m) =
  if OrderedMap.mem k (OrderedMap.keys m) then OrderedMap.keys m
  else OrderedMap.keys m ++ [k].
Proof.
  induction m as [|[k0 v0] m IH]; simpl.
  - reflexivity.
  - destruct (String.eqb k k0); simpl.
    + reflexivity.
    + rewrite IH. destruct (OrderedMap.mem k (OrderedMap.keys m)); reflexivity.
Qed.

Lemma mem_true_iff (k : string) (ks : list string) :
  OrderedMap.mem k ks = true <-> In k ks.
Proof.
  unfold OrderedMap.mem. rewrite existsb_exists. split.
  - intros [x [Hx Heq]]. apply String.eqb_eq in Heq. subst. exact Hx.
  - intros H. exists k. split; [exact H | apply String.eqb_refl].
Qed.

Lemma mem_app (k : string) (l1 l2 : list string) :
  OrderedMap.mem k (l1 ++ l2) = OrderedMap.mem k l1 || OrderedMap.mem k l2.
Proof. unfold OrderedMap.mem. apply existsb_app. Qed.

(** The running total of every key after a pass over [l]. *)
Lemma get_fold (k : string) (l : list TimeEntry) : forall m,
  JS.or_default (OrderedMap.get k (fold_left aggregate_step l m)) 0 =
  JS.or_default (OrderedMap.get k m) 0 + sum_entry_seconds (entries_of k l).
Proof.
  induction l as [|e l IH]; intros m; simpl.
  - lia.
  - rewrite IH. unfold aggregate_step at 1. rewrite get_set.
    rewrite (String.eqb_sym k).
    destruct (String.eqb (JS.toLowerCase (te_category e)) k) eqn:Heq; simpl.
    + apply String.eqb_eq in Heq. rewrite Heq, !or_default_zero.
      destruct (OrderedMap.get k m) as [v|].
      * destruct (v + te_seconds e =? 0) eqn:Hz; [apply Z.eqb_eq in Hz|]; lia.
      * destruct (0 + te_seconds e =? 0) eqn:Hz; [apply Z.eqb_eq in Hz|]; lia.
    + reflexivity.
Qed.

Lemma sum_values_fold (l : list TimeEntry) : forall m,
  sum_values (fold_left aggregate_step l m) = sum_values m + sum_entry_seconds l.
Proof.
  induction l as [|e l IH]; intros m; simpl.
  - lia.
  - rewrite IH. unfold aggregate_step. rewrite sum_values_set. lia.
Qed.

Lemma filter_filter_mem (ks : list string) (k : string) (l : list string) :
  filter (fun x => negb (OrderedMap.mem x (ks ++ [k]))) l =
  filter (fun x => negb (OrderedMap.mem x ks)) (filter (fun y => negb (String.eqb y k)) l).
Proof.
  induction l as [|x l IH]; simpl.
  - reflexivity.
  - rewrite mem_app. unfold OrderedMap.mem at 2. simpl. rewrite orb_false_r.
    destruct (String.eqb x k); simpl.
    + rewrite orb_true_r. simpl. exact IH.
    + rewrite orb_false_r. destruct (OrderedMap.mem x ks); simpl; rewrite IH; reflexivity.
Qed.

Lemma filter_absorb (ks : list string) (k : string) (l : list string) :
  OrderedMap.mem k ks = true ->
  filter (fun x => negb (OrderedMap.mem x ks)) (filter (fun y => negb (String.eqb y k)) l) =
  filter (fun x => negb (OrderedMap.mem x ks)) l.
Proof.
  intros Hk. induction l as [|x l IH]; simpl.
  - reflexivity.
  - destruct (String.eqb_spec x k) as [->|Hne]; simpl.
    + rewrite Hk. simpl. exact IH.
    + rewrite IH. reflexivity.
Qed.

(** Keys are appended in the order in which new categories show up. *)
Lemma keys_fold (l : list TimeEntry) : forall m,
  OrderedMap.keys (fold_left aggregate_step l m) =
  OrderedMap.keys m ++
  filter (fun k => negb (OrderedMap.mem k (OrderedMap.keys m))) (first_seen (map lowcat l)).
Proof.
  induction l as [|e l IH]; intros m; simpl.
  - rewrite app_nil_r. reflexivity.
  - rewrite IH. unfold aggregate_step at 1 2. rewrite keys_set. fold (lowcat e).
    destruct (OrderedMap.mem (lowcat e) (OrderedMap.keys m)) eqn:Hmem; simpl.
    + rewrite filter_absorb by exact Hmem. reflexivity.
    + rewrite <- app_assoc. simpl. rewrite filter_filter_mem. reflexivity.
Qed.

Lemma keys_tally (l : list TimeEntry) :
  OrderedMap.keys (tally l) = first_seen (map lowcat l).
Proof.
  unfold tally. rewrite keys_fold. simpl.
  induction (first_seen (map lowcat l)) as [|x t IH]; simpl; [reflexivity|].
  f_equal. exact IH.
Qed.

Lemma first_seen_In (x : string) (l : list string) :
  In x (first_seen l) <-> In x l.
Proof.
  induction l as [|y l IH]; simpl.
  - tauto.
  - rewrite filter_In, IH. split.
    + intros [H|[H _]]; auto.
    + intros [H|H]; [left; exact H|].
      destruct (String.eqb x y) eqn:Heq.
      * left. symmetry. apply String.eqb_eq. exact Heq.
      * right. split; [exact H | reflexivity].
Qed.

Lemma NoDup_filter {A : Type} (f : A -> bool) (l : list A) :
  NoDup l -> NoDup (filter f l).
Proof.
  induction 1 as [|x l Hx Hnd IH]; simpl.
  - constructor.
  - destruct (f x); [constructor|]; auto.
    rewrite filter_In. tauto.
Qed.

Lemma first_seen_NoDup (l : list string) : NoDup (first_seen l).
Proof.
  induction l as [|y l IH]; simpl; constructor.
  - rewrite filter_In. intros [_ H].
    rewrite String.eqb_refl in H. discriminate.
  - apply NoDup_filter. exact IH.
Qed.

Lemma get_of_In (k : string) (v : Z) (m : OrderedMap.t) :
  NoDup (OrderedMap.keys m) -> In (k, v) m -> OrderedMap.get k m = Some v.
Proof.
  induction m as [|[k0 v0] m IH]; simpl; intros Hnd Hin.
  - contradiction.
  - inversion Hnd as [|? ? Hnotin Hnd']; subst.
    destruct Hin as [Heq|Hin].
    + inversion Heq; subst. rewrite String.eqb_refl. reflexivity.
    + destruct (String.eqb_spec k k0) as [->|Hne].
      * exfalso. apply Hnotin. apply (in_map fst) in Hin. exact Hin.
      * apply IH; assumption.
Qed.

Lemma emit_fold (m : OrderedMap.t) : forall acc i,
  fold_left emit_step m (acc, i) = (acc ++ emit_from i m, (i + List.length m)%nat).
Proof.
  induction m as [|kv m IH]; intros acc i; simpl.
  - rewrite app_nil_r, Nat.add_0_r. reflexivity.
  - rewrite IH, <- app_assoc, Nat.add_succ_r. reflexivity.
Qed.

Lemma aggregateEntries_emit (l : list TimeEntry) :
  aggregateEntries l = emit_from 0 (tally l).
Proof. unfold aggregateEntries. rewrite emit_fold. reflexivity. Qed.

Lemma emit_from_names (m : OrderedMap.t) : forall i,
  map name (emit_from i m) = OrderedMap.keys m.
Proof. induction m as [|kv m IH]; intros i; simpl; [|rewrite IH]; reflexivity. Qed.

Lemma emit_from_sum (m : OrderedMap.t) : forall i,
  sum_seconds (emit_from i m) = sum_values m.
Proof. induction m as [|kv m IH]; intros i; simpl; [|rewrite IH]; reflexivity. Qed.

Lemma emit_from_In (r : AggregatedEntry) (m : OrderedMap.t) : forall i,
  In r (emit_from i m) -> In (name r, seconds r) m.
Proof.
  induction m as [|[k v] m IH]; intros i; simpl.
  - tauto.
  - intros [<-|H]; [left; reflexivity | right; eapply IH; exact H].
Qed.

Lemma emit_from_nth (m : OrderedMap.t) : forall i j r,
  nth_error (emit_from i m) j = Some r ->
  color r = nth ((i + j) mod List.length colors) colors "".
Proof.
  induction m as [|kv m IH]; intros i j r; simpl.
  - destruct j; discriminate.
  - destruct j as [|j]; simpl.
    + intros H. inversion H; subst; simpl. rewrite Nat.add_0_r. reflexivity.
    + intros H. apply IH in H. rewrite H, Nat.add_succ_r. reflexivity.
Qed.

Lemma tally_NoDup (l : list TimeEntry) : NoDup (OrderedMap.keys (tally l)).
Proof. rewrite keys_tally. apply first_seen_NoDup. Qed.

Lemma record_seconds (l : list TimeEntry) (r : AggregatedEntry) :
  In r (aggregateEntries l) ->
  seconds r = sum_entry_seconds (entries_of (name r) l).
Proof.
  rewrite aggregateEntries_emit. intros Hr. apply emit_from_In in Hr.
  apply get_of_In in Hr; [|apply tally_NoDup].
  pose proof (get_fold (name r) l OrderedMap.empty) as Hg.
  fold (tally l) in Hg. rewrite Hr in Hg.
  rewrite or_default_zero in Hg. simpl in Hg. exact Hg.
Qed.

(** C1. The seconds of the records returned by [aggregateEntries] add up to
    the seconds of the input entries, and the [seconds] of each record is the
    sum of [seconds] over exactly the input entries whose lowercased category
    is the record's [name]. *)
Theorem aggregateEntries_totals (dbEntries : list TimeEntry) :
  sum_seconds (aggregateEntries dbEntries) = sum_entry_seconds dbEntries /\
  (forall r, In r (aggregateEntries dbEntries) ->
     seconds r = sum_entry_seconds (entries_of (name r) dbEntries)).
Proof.
  split.
  - rewrite aggregateEntries_emit, emit_from_sum.
    unfold tally. rewrite sum_values_fold. reflexivity.
  - intros r Hr. apply record_seconds. exact Hr.
Qed.

Lemma aggregateEntries_totals_witness :
  let l := [ mkTimeEntry 1 "Work" 60 "u" "t" "#667eea";
             mkTimeEntry 2 "Rest" 30 "u" "t" "#764ba2";
             mkTimeEntry 3 "work" 15 "u" "t" "#f093fb" ] in
  let r := mkAggregatedEntry "work" 75 "#667eea" in
  In r (aggregateEntries l) /\
  seconds r = sum_entry_seconds (entries_of (name r) l).
Proof.
  intros l r.
  assert (Hin : In r (aggregateEntries l)) by (left; reflexivity).
  split; [exact Hin|].
  exact (proj2 (aggregateEntries_totals l) r Hin).
Defined.

(** C6. Aggregation is case-insensitive and ordered by first appearance, with
    palette colours given by emission index modulo 12: the two-entry scenario
    yields the single record code / 5400 / palette[0]; the names of the output
    are the lowercased categories in order of first appearance, without
    repetition, so every entry falls in the one bucket of its lowercased
    category; the record at index [i] has colour [palette[i mod 12]]. *)
Theorem aggregateEntries_case_insensitive_first_seen :
  (forall id1 id2 u1 u2 t1 t2 c1 c2,
     aggregateEntries [ mkTimeEntry id1 "Code" 3600 u1 t1 c1;
                        mkTimeEntry id2 "code" 1800 u2 t2 c2 ] =
     [ mkAggregatedEntry "code" 5400 (nth 0 colors "") ]) /\
  (forall dbEntries,
     map name (aggregateEntries dbEntries) =
     first_seen (map (fun e => JS.toLowerCase (te_category e)) dbEntries)) /\
  (forall dbEntries, NoDup (map name (aggregateEntries dbEntries))) /\
  (forall dbEntries e1 e2 r1 r2,
     In e1 dbEntries -> In e2 dbEntries ->
     JS.toLowerCase (te_category e1) = JS.toLowerCase (te_category e2) ->
     In r1 (aggregateEntries dbEntries) -> In r2 (aggregateEntries dbEntries) ->
     name r1 = JS.toLowerCase (te_category e1) ->
     name r2 = JS.toLowerCase (te_category e2) ->
     r1 = r2) /\
  (forall dbEntries e, In e dbEntries ->
     exists r, In r (aggregateEntries dbEntries) /\
               name r = JS.toLowerCase (te_category e)) /\
  (forall dbEntries i r,
     nth_error (aggregateEntries dbEntries) i = Some r ->
     color r = nth (i mod 12) colors "" /\ In (color r) colors).
Proof.
  assert (Hnames : forall dbEntries,
            map name (aggregateEntries dbEntries) =
            first_seen (map (fun e => JS.toLowerCase (te_category e)) dbEntries)).
  { intros l. rewrite aggregateEntries_emit, emit_from_names. apply keys_tally. }
  assert (Hnd : forall dbEntries, NoDup (map name (aggregateEntries dbEntries))).
  { intros l. rewrite Hnames. apply first_seen_NoDup. }
  split; [|split; [|split; [|split; [|split]]]].
  - reflexivity.
  - exact Hnames.
  - exact Hnd.
  - intros l e1 e2 r1 r2 _ _ Hcat H1 H2 Hn1 Hn2.
    assert (Hname : name r1 = name r2) by congruence.
    clear Hcat Hn1 Hn2 e1 e2.
    specialize (Hnd l). revert Hnd H1 H2 Hname.
    induction (aggregateEntries l) as [|a t IH]; simpl.
    + tauto.
    + intros Hnd' [->|H1] [->|H2] Hname.
      * reflexivity.
      * inversion Hnd' as [|? ? Hnotin ?]; subst.
        exfalso. apply Hnotin. rewrite Hname. apply in_map. exact H2.
      * inversion Hnd' as [|? ? Hnotin ?]; subst.
        exfalso. apply Hnotin. rewrite <- Hname. apply in_map. exact H1.
      * inversion Hnd'; subst. apply IH; assumption.
  - intros l e He.
    assert (Hin : In (JS.toLowerCase (te_category e)) (map name (aggregateEntries l))).
    { rewrite Hnames. apply first_seen_In.
      apply (in_map (fun e => JS.toLowerCase (te_category e))). exact He. }
    apply in_map_iff in Hin. destruct Hin as [r [Hr1 Hr2]].
    exists r. split; assumption.
  - intros l i r H. rewrite aggregateEntries_emit in H.
    apply emit_from_nth in H. change (List.length colors) with 12%nat in H.
    rewrite Nat.add_0_l in H. split; [exact H|].
    rewrite H. apply nth_In. apply Nat.mod_upper_bound. discriminate.
Qed.

Lemma aggregateEntries_case_insensitive_first_seen_witness :
  let l := [ mkTimeEntry 1 "Work" 60 "u" "t" "#667eea";
             mkTimeEntry 2 "Rest" 30 "u" "t" "#764ba2";
             mkTimeEntry 3 "WORK" 15 "u" "t" "#f093fb" ] in
  aggregateEntries l =
    [ mkAggregatedEntry "work" 75 "#667eea"; mkAggregatedEntry "rest" 30 "#764ba2" ] /\
  (exists r, In r (aggregateEntries l) /\ name r = "work") /\
  color (mkAggregatedEntry "rest" 30 "#764ba2") = nth (1 mod 12) colors "".
Proof.
  intros l.
  destruct aggregateEntries_case_insensitive_first_seen
    as (_ & _ & _ & _ & Hbucket & Hcolor).
  split; [reflexivity|]. split.
  - apply (Hbucket l (mkTimeEntry 3 "WORK" 15 "u" "t" "#f093fb")).
    right; right; left; reflexivity.
  - apply (Hcolor l 1%nat (mkAggregatedEntry "rest" 30 "#764ba2")). reflexivity.
Defined.

End Aggregator.

(** * Properties of [formatTime] *)

Section FormatTime.

Lemma String_of_digit (n : Z) :
  0 <= n < 10 -> JS.String_of n = String (digit n) EmptyString.
Proof.
  intros H.
  assert (Hall : forallb (fun k => String.eqb (JS.String_of (Z.of_nat k))
                                     (String (digit (Z.of_nat k)) EmptyString))
                         (seq 0 10) = true) by (vm_compute; reflexivity).
  rewrite forallb_forall in Hall.
  specialize (Hall (Z.to_nat n)).
  rewrite Z2Nat.id in Hall by lia.
  apply String.eqb_eq, Hall, in_seq. lia.
Qed.

Lemma String_of_two_digits (n : Z) :
  10 <= n -> (2 <= String.length (JS.String_of n))%nat.
Proof.
  intros H. destruct n as [|p|p]; try lia.
  unfold JS.String_of, Z.to_int.
  pose proof (DecimalPos.Unsigned.of_to p) as Hp.
  destruct (Pos.to_uint p) as [|d|d|d|d|d|d|d|d|d|d];
    try (simpl in Hp; discriminate Hp);
    destruct d; simpl in *; try lia;
    injection Hp as Hp; subst p; lia.
Qed.

Lemma padStart_field2 (n : Z) :
  0 <= n -> JS.padStart 2 "0" (JS.String_of n) = field2 n.
Proof.
  intros H. unfold field2, JS.padStart.
  destruct (Z.ltb_spec n 10) as [Hlt|Hge].
  - rewrite String_of_digit by lia. reflexivity.
  - pose proof (String_of_two_digits n Hge) as Hlen.
    destruct (Nat.leb_spec 2 (String.length (JS.String_of n))); [reflexivity | lia].
Qed.

Lemma field2_length_below_100 (n : Z) :
  0 <= n < 100 -> String.length (field2 n) = 2%nat.
Proof.
  intros H.
  assert (Hall : forallb (fun k => Nat.eqb (String.length (field2 (Z.of_nat k))) 2)
                         (seq 0 100) = true) by (vm_compute; reflexivity).
  rewrite forallb_forall in Hall.
  specialize (Hall (Z.to_nat n)).
  rewrite Z2Nat.id in Hall by lia.
  apply Nat.eqb_eq, Hall, in_seq. lia.
Qed.

Lemma field2_length_ge (n : Z) :
  0 <= n -> (2 <= String.length (field2 n))%nat.
Proof.
  intros H. unfold field2.
  destruct (Z.ltb_spec n 10); [simpl; lia | apply String_of_two_digits; lia].
Qed.

(** C9. [formatTime 3661] is 01:01:01, and for a non-negative count of
    seconds the result is the hours, minutes and seconds of the count, each
    as a two-column zero-padded decimal field (wider only for a hundred hours
    or more), joined by colons. *)
Theorem formatTime_fields :
  formatTime 3661 = "01:01:01" /\
  (forall s, 0 <= s ->
     let h := s / 3600 in
     let m := (s mod 3600) / 60 in
     let c := s mod 60 in
     formatTime s = (field2 h ++ ":" ++ field2 m ++ ":" ++ field2 c)%string /\
     s = 3600 * h + 60 * m + c /\
     0 <= h /\ 0 <= m < 60 /\ 0 <= c < 60 /\
     (2 <= String.length (field2 h))%nat /\
     String.length (field2 m) = 2%nat /\
     String.length (field2 c) = 2%nat).
Proof.
  split; [reflexivity|].
  intros s Hs h m c.
  assert (Hh : 0 <= h) by (apply Z.div_pos; lia).
  assert (Hr : 0 <= s mod 3600 < 3600) by (apply Z.mod_pos_bound; lia).
  assert (Hm : 0 <= m < 60).
  { subst m. split; [apply Z.div_pos; lia|].
    apply Z.div_lt_upper_bound; lia. }
  assert (Hc : 0 <= c < 60) by (apply Z.mod_pos_bound; lia).
  assert (Hdecomp : s = 3600 * h + 60 * m + c).
  { subst h m c.
    pose proof (Z.div_mod s 3600 ltac:(lia)) as E1.
    pose proof (Z.div_mod (s mod 3600) 60 ltac:(lia)) as E2.
    assert (E3 : (s mod 3600) mod 60 = s mod 60).
    { replace (s mod 60) with ((s mod 3600 + (60 * (s / 3600)) * 60) mod 60)
        by (f_equal; lia).
      rewrite Z.mod_add by lia. reflexivity. }
    lia. }
  split; [|repeat (split; try lia)].
  - unfold formatTime, JS.floor_div, JS.rem.
    rewrite !Z.rem_mod_nonneg by lia.
    rewrite !padStart_field2 by assumption || lia. reflexivity.
  - apply field2_length_ge. exact Hh.
  - apply field2_length_below_100. lia.
  - apply field2_length_below_100. lia.
Qed.

Lemma formatTime_fields_witness :
  0 <= 86399 /\ formatTime 86399 = "23:59:59".
Proof.
  split; [lia|].
  destruct (proj2 formatTime_fields 86399 ltac:(lia)) as [H _].
  rewrite H. reflexivity.
Defined.

End FormatTime.

(** * Properties of the timer session and of the storage handlers *)

Module TimerFacts.
Import Timer.

Lemma trimStart_head (s : string) :
  match JS.trimStart s with
  | EmptyString => True
  | String c _ => JS.is_space c = false
  end.
Proof.
  induction s as [|c t IH]; simpl; [exact I|].
  destruct (JS.is_space c) eqn:E; [exact IH | exact E].
Qed.

Lemma trimEnd_nonempty (c : ascii) (t : string) :
  JS.is_space c = false -> JS.trimEnd (String c t) <> EmptyString.
Proof.
  intros E. simpl. destruct (JS.trimEnd t); [rewrite E|]; discriminate.
Qed.

(** The trimmed text is empty exactly when nothing but white space was
    typed. *)
Lemma trim_empty_iff (s : string) :
  JS.trim s = EmptyString <-> JS.trimStart s = EmptyString.
Proof.
  unfold JS.trim. pose proof (trimStart_head s) as H.
  destruct (JS.trimStart s) as [|c t]; [simpl; tauto|].
  split; [|discriminate].
  intros E. exfalso. exact (trimEnd_nonempty c t H E).
Qed.

Lemma falsy_trim (s : string) :
  negb (JS.truthy (JS.trim s)) = true <-> JS.trim s = EmptyString.
Proof.
  destruct (JS.trim s); simpl; split; congruence.
Qed.

(** C8. [startTimer] with an empty trimmed category only raises the prompt:
    the state is returned as it was (so [isRunning] keeps its value, no start
    timestamp is recorded) and no poll is started. With a non-empty trimmed
    category the session becomes running, the start timestamp is recorded, a
    poll with a period of 1000 ms is started, and every firing of that poll
    sets the elapsed seconds to floor((now' - start) / 1000). *)
Theorem startTimer_validation (st : State) (now : Z) :
  (JS.trim (category st) = EmptyString ->
     startTimer st now = (st, [Alert "Please enter a task name!"]) /\
     (forall n d, ~ In (SetInterval n d) (snd (startTimer st now)))) /\
  (JS.trim (category st) <> EmptyString ->
     let st' := fst (startTimer st now) in
     snd (startTimer st now) = [SetInterval now 1000] /\
     isRunning st' = true /\
     startTime st' = Some now /\
     intervalRef st' = Some now /\
     elapsedSeconds st' = 0 /\
     category st' = category st /\
     entries st' = entries st /\
     allEntries st' = allEntries st /\
     (forall currentTime,
        let e := elapsedSeconds (tick st' currentTime) in
        e = (currentTime - now) / 1000 /\
        1000 * e <= currentTime - now < 1000 * (e + 1))).
Proof.
  unfold startTimer. split; intros H.
  - apply falsy_trim in H. rewrite H. split; [reflexivity|].
    simpl. intros n d [Hin|[]]. discriminate Hin.
  - destruct (negb (JS.truthy (JS.trim (category st)))) eqn:E.
    + apply falsy_trim in E. contradiction.
    + cbn [fst snd]. do 8 (split; [reflexivity|]).
      intros currentTime.
      cbn [tick poll intervalRef elapsedSeconds set_intervalRef set_isRunning
           set_elapsedSeconds set_startTime].
      unfold JS.floor_div.
      pose proof (Z.div_mod (currentTime - now) 1000 ltac:(lia)) as Hd.
      pose proof (Z.mod_pos_bound (currentTime - now) 1000 ltac:(lia)) as Hb.
      split; [reflexivity | lia].
Qed.

Lemma startTimer_validation_witness :
  (startTimer idle_blank 1000 = (idle_blank, [Alert "Please enter a task name!"])) /\
  (isRunning (fst (startTimer idle_typed 5000)) = true /\
   elapsedSeconds (tick (fst (startTimer idle_typed 5000)) 12999) = 7).
Proof.
  split.
  - apply (proj1 (startTimer_validation idle_blank 1000)). reflexivity.
  - destruct (proj2 (startTimer_validation idle_typed 5000)) as (_ & Hrun & _ & _ & _ & _ & _ & _ & Hpoll).
    + discriminate.
    + split; [exact Hrun|].
      destruct (Hpoll 12999) as [He _]. rewrite He. reflexivity.
Defined.



(** A start immediately followed by a stop (no firing of the poll in
    between) stores an entry of zero seconds; once refetched, the aggregated
    list is non-empty and its total is zero. *)
Lemma quick_stop_stores_zero_seconds :
  let started := fst (startTimer idle_typed 5000) in
  let row := mkTimeEntry 1 "write report" 0 "u" "t" "#667eea" in
  let '(st', eff) := stopTimer "u" started 0 None (Some [row]) in
  In (Insert "u" "write report" 0 "#667eea") eff /\
  entries st' = [mkAggregatedEntry "write report" 0 "#667eea"] /\
  entries st' <> [] /\
  total_seconds (entries st') = 0.
Proof.
  simpl. split; [right; left; reflexivity|].
  split; [reflexivity|]. split; [discriminate | reflexivity].
Qed.

End TimerFacts.

(** * Properties of the pie layout *)

Section Layout.
Local Open Scope R_scope.

Lemma layout_fold (total : R) (l : list AggregatedEntry) : forall cur acc,
  fold_left (layout_step total) l (cur, acc) =
  (cur + angle_sum total l, acc ++ layout_from total cur l).
Proof.
  induction l as [|e l IH]; intros cur acc; simpl.
  - rewrite app_nil_r. f_equal. lra.
  - rewrite IH, <- app_assoc. simpl. f_equal. lra.
Qed.

Lemma buildSlices_layout (l : list AggregatedEntry) :
  buildSlices l = layout_from (IZR (total_seconds l)) (- PI / 2) l.
Proof. unfold buildSlices. rewrite layout_fold. reflexivity. Qed.

Lemma total_seconds_fold (l : list AggregatedEntry) : forall acc,
  fold_left (fun sum entry => (sum + seconds entry)%Z) l acc = (acc + sum_seconds l)%Z.
Proof.
  induction l as [|e l IH]; intros acc; simpl.
  - lia.
  - rewrite IH. lia.
Qed.

Lemma total_seconds_sum (l : list AggregatedEntry) :
  total_seconds l = sum_seconds l.
Proof. unfold total_seconds. rewrite total_seconds_fold. lia. Qed.

Lemma layout_from_length (total : R) (l : list AggregatedEntry) : forall cur,
  List.length (layout_from total cur l) = List.length l.
Proof. induction l as [|e l IH]; intros cur; simpl; [|rewrite IH]; reflexivity. Qed.

(** Position of the slice of index [i]. *)
Lemma layout_from_nth (total : R) (l : list AggregatedEntry) : forall cur i s,
  nth_error (layout_from total cur l) i = Some s ->
  exists e, nth_error l i = Some e /\
            startAngle s = cur + angle_sum total (firstn i l) /\
            endAngle s = startAngle s + sliceAngle total e /\
            slice_name s = name e /\ slice_seconds s = seconds e.
Proof.
  induction l as [|e l IH]; intros cur i s; simpl.
  - destruct i; discriminate.
  - destruct i as [|i]; simpl.
    + intros H. inversion H; subst; simpl. exists e.
      repeat split; lra.
    + intros H. apply IH in H. destruct H as (e' & He & Hs & Hrest).
      exists e'. split; [exact He|]. split; [rewrite Hs; lra | exact Hrest].
Qed.

Lemma angle_sum_cons (total : R) (a : AggregatedEntry) (l : list AggregatedEntry) :
  angle_sum total (a :: l) = sliceAngle total a + angle_sum total l.
Proof. reflexivity. Qed.

Lemma angle_sum_firstn_S (total : R) (l : list AggregatedEntry) : forall i e,
  nth_error l i = Some e ->
  angle_sum total (firstn (S i) l) = angle_sum total (firstn i l) + sliceAngle total e.
Proof.
  induction l as [|a l IH]; intros i e.
  - destruct i; discriminate.
  - destruct i as [|i].
    + simpl. intros H. inversion H; subst. lra.
    + intros H. change (nth_error l i = Some e) in H.
      rewrite (firstn_cons (S i)), (firstn_cons i), !angle_sum_cons.
      rewrite (IH i e H). lra.
Qed.

Lemma angle_sum_total (total : R) (l : list AggregatedEntry) :
  angle_sum total l = IZR (sum_seconds l) / total * 2 * PI.
Proof.
  induction l as [|e l IH]; simpl.
  - lra.
  - rewrite IH, plus_IZR. unfold sliceAngle. lra.
Qed.

Lemma angle_sum_full_turn (l : list AggregatedEntry) :
  (0 < total_seconds l)%Z ->
  angle_sum (IZR (total_seconds l)) l = 2 * PI.
Proof.
  intros H. rewrite angle_sum_total, <- total_seconds_sum.
  apply IZR_lt in H. field. lra.
Qed.

Lemma sum_widths_layout (total : R) (l : list AggregatedEntry) : forall cur,
  sum_widths (layout_from total cur l) = angle_sum total l.
Proof.
  induction l as [|e l IH]; intros cur; simpl.
  - reflexivity.
  - rewrite IH. unfold slice_width. simpl. lra.
Qed.

Lemma layout_from_last (total : R) (l : list AggregatedEntry) : forall cur s,
  nth_error (layout_from total cur l) (List.length l - 1) = Some s ->
  l <> [] ->
  endAngle s = cur + angle_sum total l.
Proof.
  intros cur s H Hne.
  apply layout_from_nth in H. destruct H as (e & He & Hs & Hend & _).
  rewrite Hend, Hs, Rplus_assoc, <- (angle_sum_firstn_S total l _ e He).
  replace (S (List.length l - 1)) with (List.length l)
    by (destruct l; [contradiction | simpl; lia]).
  rewrite firstn_all. reflexivity.
Qed.

Lemma sliceAngle_nonneg (total : R) (e : AggregatedEntry) :
  0 < total -> (0 <= seconds e)%Z -> 0 <= sliceAngle total e.
Proof.
  intros Ht He. unfold sliceAngle. apply IZR_le in He.
  pose proof PI_RGT_0 as Hpi.
  assert (0 <= IZR (seconds e) / total).
  { apply Rmult_le_pos; [exact He|]. left. apply Rinv_0_lt_compat. exact Ht. }
  apply Rmult_le_pos; [|lra]. apply Rmult_le_pos; lra.
Qed.

(** C3. For a non-empty aggregated list with positive total, the slice list
    has one slice per entry; the first slice starts at -PI/2; each later slice
    starts where the previous one ends; the width of each slice is
    (seconds / total) * 2 * PI; with non-negative seconds no slice ends before
    it starts; the widths add up to 2 * PI and the last slice ends at
    -PI/2 + 2 * PI. The equalities are those of exact real arithmetic. *)
Theorem buildSlices_invariants (entries : list AggregatedEntry) :
  entries <> [] ->
  (0 < total_seconds entries)%Z ->
  let total := IZR (total_seconds entries) in
  let slices := buildSlices entries in
  List.length slices = List.length entries /\
  (forall s, nth_error slices 0 = Some s -> startAngle s = - PI / 2) /\
  (forall i s1 s2,
     nth_error slices i = Some s1 -> nth_error slices (S i) = Some s2 ->
     startAngle s2 = endAngle s1) /\
  (forall i s, nth_error slices i = Some s ->
     exists e, nth_error entries i = Some e /\
               slice_name s = name e /\ slice_seconds s = seconds e /\
               slice_width s = IZR (seconds e) / total * 2 * PI) /\
  (Forall (fun e => (0 <= seconds e)%Z) entries ->
     forall s, In s slices -> startAngle s <= endAngle s) /\
  sum_widths slices = 2 * PI /\
  (forall s, nth_error slices (List.length entries - 1) = Some s ->
     endAngle s = - PI / 2 + 2 * PI).
Proof.
  intros Hne Hpos total slices. subst slices.
  rewrite buildSlices_layout. fold total.
  split; [apply layout_from_length|].
  split.
  { intros s H. apply layout_from_nth in H.
    destruct H as (e & _ & Hs & _). rewrite Hs. simpl. lra. }
  split.
  { intros i s1 s2 H1 H2.
    apply layout_from_nth in H1. destruct H1 as (e1 & He1 & Hs1 & Hend1 & _).
    apply layout_from_nth in H2. destruct H2 as (e2 & _ & Hs2 & _).
    rewrite Hs2, Hend1, Hs1, (angle_sum_firstn_S total entries i e1 He1). lra. }
  split.
  { intros i s H. apply layout_from_nth in H.
    destruct H as (e & He & _ & Hend & Hn & Hsec).
    exists e. repeat (split; [assumption|]).
    unfold slice_width. rewrite Hend. unfold sliceAngle. lra. }
  split.
  { intros Hall s Hin. apply In_nth_error in Hin. destruct Hin as [i Hi].
    apply layout_from_nth in Hi. destruct Hi as (e & He & _ & Hend & _).
    rewrite Hend.
    assert (0 <= sliceAngle total e).
    { apply sliceAngle_nonneg; [apply (IZR_lt 0); exact Hpos|].
      rewrite Forall_forall in Hall. apply Hall.
      apply nth_error_In in He. exact He. }
    lra. }
  split.
  { rewrite sum_widths_layout. apply angle_sum_full_turn. exact Hpos. }
  intros s H. apply layout_from_last in H; [|exact Hne].
  rewrite H. unfold total. rewrite angle_sum_full_turn by exact Hpos. reflexivity.
Qed.

Lemma buildSlices_invariants_witness :
  two_equal <> [] /\ (0 < total_seconds two_equal)%Z /\
  sum_widths (buildSlices two_equal) = 2 * PI /\
  (forall s, nth_error (buildSlices two_equal) 0 = Some s -> startAngle s = - PI / 2).
Proof.
  assert (Hne : two_equal <> []) by discriminate.
  assert (Hpos : (0 < total_seconds two_equal)%Z) by reflexivity.
  pose proof (buildSlices_invariants two_equal Hne Hpos) as H. cbv zeta in H.
  destruct H as (_ & Hfirst & _ & _ & _ & Hsum & _).
  split; [exact Hne|]. split; [exact Hpos|]. split; [exact Hsum | exact Hfirst].
Defined.

(** ** The renderer's choice of path *)

Lemma renderPieChart_empty (c : Canvas) (offsetWidth : option R) :
  exists c', renderPieChart (Some c) true offsetWidth [] = Placeholder c'.
Proof. eexists. reflexivity. Qed.

(** Whatever the total, a non-empty list is laid out and painted. *)
Lemma renderPieChart_nonempty (c : Canvas) (offsetWidth : option R)
  (entries : list AggregatedEntry) :
  entries <> [] ->
  exists c', renderPieChart (Some c) true offsetWidth entries =
             Painted c' (IZR (total_seconds entries)) (buildSlices entries).
Proof.
  intros Hne. destruct entries as [|e l]; [contradiction|].
  eexists. reflexivity.
Qed.

(** C4 on the code. For the aggregation of a single entry of zero seconds
    (a start immediately followed by a stop), the list is non-empty and its
    total is zero; [renderPieChart] does not take the placeholder path: it
    lays out one slice, and the angles of that slice are computed by the
    division 0 / 0. *)
Theorem zero_total_is_painted (c : Canvas) (offsetWidth : option R) :
  aggregateEntries [mkTimeEntry 1 "a" 0 "u" "t" "#667eea"] = zero_seconds /\
  zero_seconds <> [] /\
  total_seconds zero_seconds = 0%Z /\
  (exists c', renderPieChart (Some c) true offsetWidth zero_seconds =
              Painted c' 0 (buildSlices zero_seconds)) /\
  (forall c', renderPieChart (Some c) true offsetWidth zero_seconds <> Placeholder c') /\
  buildSlices zero_seconds =
    [ {| startAngle := - PI / 2;
         endAngle := - PI / 2 + 0 / 0 * 2 * PI;
         slice_name := "a"; slice_seconds := 0;
         percentage := 0 / 0 * 100 |} ].
Proof.
  split; [reflexivity|]. split; [discriminate|]. split; [reflexivity|].
  split; [eexists; reflexivity|]. split; [|reflexivity].
  intros c' H. discriminate H.
Qed.

End Layout.

(** * Properties of the hit tester *)

Section HitTest.
Local Open Scope R_scope.

Lemma Rltb_true (a b : R) : Rltb a b = true <-> a < b.
Proof. unfold Rltb. destruct (Rlt_dec a b); split; intros; congruence || lra. Qed.

Lemma Rltb_false (a b : R) : Rltb a b = false <-> b <= a.
Proof. unfold Rltb. destruct (Rlt_dec a b); split; intros; congruence || lra. Qed.

Lemma Rleb_true (a b : R) : Rleb a b = true <-> a <= b.
Proof. unfold Rleb. destruct (Rle_dec a b); split; intros; congruence || lra. Qed.

Lemma Rleb_false (a b : R) : Rleb a b = false <-> b < a.
Proof. unfold Rleb. destruct (Rle_dec a b); split; intros; congruence || lra. Qed.

Lemma Rgeb_true (a b : R) : Rgeb a b = true <-> a >= b.
Proof. unfold Rgeb. rewrite Rleb_true. split; lra. Qed.

Lemma Rgtb_true (a b : R) : Rgtb a b = true <-> a > b.
Proof. unfold Rgtb. rewrite Rltb_true. split; lra. Qed.

Lemma Rgtb_false (a b : R) : Rgtb a b = false <-> a <= b.
Proof. unfold Rgtb. rewrite Rltb_false. tauto. Qed.

Lemma normalize_neg (a : R) : a < 0 -> normalize a = a + 2 * PI.
Proof. intros H. unfold normalize. apply Rltb_true in H. rewrite H. reflexivity. Qed.

Lemma normalize_nonneg (a : R) : 0 <= a -> normalize a = a.
Proof. intros H. unfold normalize. apply Rltb_false in H. rewrite H. reflexivity. Qed.

(** [Math.atan2] takes its values in (-PI, PI]. *)
Lemma atan2_range (y x : R) : - PI < atan2 y x <= PI.
Proof.
  pose proof PI_RGT_0 as Hpi.
  pose proof (atan_bound (y / x)) as Hb.
  unfold atan2.
  destruct (Rlt_dec 0 x) as [Hx|Hx]; [lra|].
  destruct (Rlt_dec x 0) as [Hx'|Hx'].
  - assert (Hinv : / x < 0) by (apply Rinv_lt_0_compat; exact Hx').
    destruct (Rle_dec 0 y) as [Hy|Hy].
    + assert (Hq : y / x <= 0).
      { unfold Rdiv. replace 0 with (y * 0) by lra.
        apply Rmult_le_compat_l; lra. }
      assert (atan (y / x) <= 0).
      { destruct Hq as [Hq|Hq].
        - left. rewrite <- atan_0. apply atan_increasing. exact Hq.
        - rewrite Hq, atan_0. lra. }
      lra.
    + assert (Hq : 0 < y / x).
      { unfold Rdiv. replace (y * / x) with ((- y) * (- / x)) by lra.
        apply Rmult_lt_0_compat; lra. }
      assert (0 < atan (y / x)).
      { rewrite <- atan_0. apply atan_increasing. exact Hq. }
      lra.
  - destruct (Rlt_dec 0 y); [lra|]. destruct (Rlt_dec y 0); lra.
Qed.

(** The pointer angle handed to the scan lies in [0, 2 PI). *)
Lemma pointerAngle_range (c : Canvas) (x y : R) :
  0 <= pointerAngle c x y < 2 * PI.
Proof.
  unfold pointerAngle.
  set (a := atan2 _ _).
  pose proof (atan2_range (mouseY c y - centerY c) (mouseX c x - centerX c)) as Ha.
  fold a in Ha. pose proof PI_RGT_0 as Hpi.
  destruct (Rlt_dec (a + PI / 2) 0) as [Hn|Hn].
  - rewrite normalize_neg by exact Hn. lra.
  - rewrite normalize_nonneg by lra. lra.
Qed.

(** The meaning of the test of one slice, for either reading of the wrap
    branch. *)
Lemma slice_matches_spec (wrap : R -> R -> R -> bool) (angle : R) (s : Slice) :
  slice_matches wrap angle s =
  if Rltb (normalize (endAngle s)) (normalize (startAngle s))
  then wrap angle (normalize (startAngle s)) (normalize (endAngle s))
  else Rgeb angle (normalize (startAngle s)) && Rleb angle (normalize (endAngle s)).
Proof. reflexivity. Qed.

Lemma wrap_or_true (angle start end_ : R) :
  wrap_or angle start end_ = true <-> angle >= start \/ angle <= end_.
Proof.
  unfold wrap_or. rewrite orb_true_iff, Rgeb_true, Rleb_true. tauto.
Qed.

Lemma wrap_nullish_true (angle start end_ : R) :
  Part001.wrap_nullish angle start end_ = true <-> angle >= start.
Proof. unfold Part001.wrap_nullish. simpl. apply Rgeb_true. Qed.

(** The first match of a scan. *)
Lemma find_first {A : Type} (f : A -> bool) (l : list A) (a : A) :
  In a l -> f a = true ->
  exists s pre post,
    l = pre ++ s :: post /\ find f l = Some s /\ f s = true /\
    Forall (fun s' => f s' = false) pre.
Proof.
  induction l as [|b l IH]; intros Hin Hf; [contradiction|].
  simpl. destruct (f b) eqn:Hb.
  - exists b, [], l. repeat split; [exact Hb | constructor].
  - destruct Hin as [->|Hin]; [congruence|].
    destruct (IH Hin Hf) as (s & pre & post & Hl & Hfind & Hs & Hpre).
    exists s, (b :: pre), post. rewrite Hl. repeat split; try assumption.
    + rewrite <- Hl. exact Hfind.
    + constructor; assumption.
Qed.

(** Every layout angle between the first start and the last end lies in the
    span of some slice. *)
Lemma layout_cover (total : R) (l : list AggregatedEntry) : forall cur phi,
  Forall (fun e => 0 <= sliceAngle total e) l ->
  l <> [] ->
  cur <= phi <= cur + angle_sum total l ->
  exists s, In s (layout_from total cur l) /\ startAngle s <= phi <= endAngle s.
Proof.
  induction l as [|e l IH]; intros cur phi Hall Hne Hphi; [contradiction|].
  inversion Hall as [|? ? He Hall']; subst.
  rewrite angle_sum_cons in Hphi.
  destruct (Rle_dec phi (cur + sliceAngle total e)) as [Hle|Hgt].
  - eexists. split; [left; reflexivity|]. simpl. lra.
  - destruct l as [|e' l'].
    + simpl in Hphi. lra.
    + destruct (IH (cur + sliceAngle total e) phi Hall' ltac:(discriminate))
        as (s & Hin & Hs); [lra|].
      exists s. split; [right; exact Hin | exact Hs].
Qed.

Lemma angle_sum_nonneg (total : R) (l : list AggregatedEntry) :
  Forall (fun e => 0 <= sliceAngle total e) l -> 0 <= angle_sum total l.
Proof.
  induction 1 as [|e l He Hall IH]; simpl; lra.
Qed.

(** Where the slices of a layout lie, and how wide they are. *)
Lemma layout_bounds (total : R) (l : list AggregatedEntry) : forall cur s,
  Forall (fun e => 0 <= sliceAngle total e) l ->
  In s (layout_from total cur l) ->
  cur <= startAngle s /\ endAngle s <= cur + angle_sum total l /\
  exists e, In e l /\ endAngle s = startAngle s + sliceAngle total e.
Proof.
  induction l as [|e l IH]; intros cur s Hall Hin; [contradiction|].
  inversion Hall as [|? ? He Hall']; subst.
  pose proof (angle_sum_nonneg total l Hall') as Hsum.
  rewrite angle_sum_cons. destruct Hin as [<-|Hin]; simpl.
  - split; [lra|]. split; [lra|]. exists e. split; [left; reflexivity | reflexivity].
  - destruct (IH _ _ Hall' Hin) as (H1 & H2 & e' & He' & Hw).
    split; [lra|]. split; [lra|]. exists e'. split; [right; exact He' | exact Hw].
Qed.

Lemma sliceAngle_below_turn (total : R) (e : AggregatedEntry) :
  0 < total -> IZR (seconds e) < total -> sliceAngle total e < 2 * PI.
Proof.
  intros Ht He. unfold sliceAngle. pose proof PI_RGT_0 as Hpi.
  assert (Hq : IZR (seconds e) / total < 1).
  { apply (Rmult_lt_reg_r total); [exact Ht|].
    unfold Rdiv. rewrite Rmult_assoc, Rinv_l by lra. lra. }
  assert (IZR (seconds e) / total * (2 * PI) < 1 * (2 * PI))
    by (apply Rmult_lt_compat_r; lra).
  lra.
Qed.

(** A slice that does not span the whole turn matches every pointer angle
    whose layout angle lies in its span. *)
Lemma slice_matches_contains (theta phi : R) (s : Slice) :
  - PI / 2 <= startAngle s -> startAngle s <= endAngle s ->
  endAngle s <= 3 * PI / 2 -> endAngle s - startAngle s < 2 * PI ->
  0 <= theta < 2 * PI ->
  (phi = theta \/ phi = theta - 2 * PI) ->
  startAngle s <= phi <= endAngle s ->
  slice_matches wrap_or theta s = true.
Proof.
  intros H1 H2 H3 H4 Ht Hphi Hin. pose proof PI_RGT_0 as Hpi.
  rewrite slice_matches_spec. unfold wrap_or, normalize, Rgeb, Rleb, Rltb.
  repeat match goal with
         | |- context [Rlt_dec ?a ?b] => destruct (Rlt_dec a b)
         | |- context [Rle_dec ?a ?b] => destruct (Rle_dec a b)
         end; simpl; try reflexivity; exfalso; lra.
Qed.

(** ** The sample canvas *)

Lemma radius_canvas200 : radius canvas200 = 80.
Proof.
  unfold radius, centerX, centerY, canvas200, Rmin. simpl.
  destruct (Rle_dec (200 / 2) (200 / 2)); lra.
Qed.

Lemma offsets_canvas200 (x y : R) :
  mouseX canvas200 x - centerX canvas200 = x - 100 /\
  mouseY canvas200 y - centerY canvas200 = y - 100.
Proof. unfold mouseX, mouseY, centerX, centerY, canvas200. simpl. lra. Qed.

Lemma distance_center : distance canvas200 100 100 = 0.
Proof.
  unfold distance. destruct (offsets_canvas200 100 100) as [-> ->].
  replace ((100 - 100) * (100 - 100) + (100 - 100) * (100 - 100)) with 0 by lra.
  apply sqrt_0.
Qed.

Lemma distance_top : distance canvas200 100 50 = 50.
Proof.
  unfold distance. destruct (offsets_canvas200 100 50) as [-> ->].
  replace ((100 - 100) * (100 - 100) + (50 - 100) * (50 - 100)) with (50 * 50) by lra.
  apply sqrt_square. lra.
Qed.

Lemma distance_rim : distance canvas200 180 100 = 80.
Proof.
  unfold distance. destruct (offsets_canvas200 180 100) as [-> ->].
  replace ((180 - 100) * (180 - 100) + (100 - 100) * (100 - 100)) with (80 * 80) by lra.
  apply sqrt_square. lra.
Qed.

Lemma angle_center : pointerAngle canvas200 100 100 = PI / 2.
Proof.
  pose proof PI_RGT_0 as Hpi.
  unfold pointerAngle. destruct (offsets_canvas200 100 100) as [-> ->].
  unfold atan2.
  destruct (Rlt_dec 0 (100 - 100)); [lra|].
  destruct (Rlt_dec (100 - 100) 0); [lra|].
  rewrite normalize_nonneg; lra.
Qed.

Lemma angle_top : pointerAngle canvas200 100 50 = 0.
Proof.
  pose proof PI_RGT_0 as Hpi.
  unfold pointerAngle. destruct (offsets_canvas200 100 50) as [-> ->].
  unfold atan2.
  destruct (Rlt_dec 0 (100 - 100)); [lra|].
  destruct (Rlt_dec (100 - 100) 0); [lra|].
  destruct (Rlt_dec 0 (50 - 100)); [lra|].
  destruct (Rlt_dec (50 - 100) 0); [|lra].
  rewrite normalize_nonneg; lra.
Qed.

Lemma angle_rim : pointerAngle canvas200 180 100 = PI / 2.
Proof.
  pose proof PI_RGT_0 as Hpi.
  unfold pointerAngle. destruct (offsets_canvas200 180 100) as [-> ->].
  unfold atan2.
  destruct (Rlt_dec 0 (180 - 100)); [|lra].
  replace ((100 - 100) / (180 - 100)) with 0 by lra.
  rewrite atan_0. rewrite normalize_nonneg; lra.
Qed.

Lemma buildSlices_two_equal : buildSlices two_equal = [slice_a; slice_b].
Proof. reflexivity. Qed.

Lemma slice_a_normalized :
  normalize (startAngle slice_a) = 3 * PI / 2 /\
  normalize (endAngle slice_a) = PI / 2.
Proof.
  pose proof PI_RGT_0 as Hpi. unfold slice_a. simpl. split.
  - rewrite normalize_neg; lra.
  - rewrite normalize_nonneg; lra.
Qed.

Lemma slice_b_normalized :
  normalize (startAngle slice_b) = PI / 2 /\
  normalize (endAngle slice_b) = 3 * PI / 2.
Proof.
  pose proof PI_RGT_0 as Hpi. unfold slice_b. simpl. split.
  - rewrite normalize_nonneg; lra.
  - rewrite normalize_nonneg; lra.
Qed.

Lemma slice_a_matches (wrap : R -> R -> R -> bool) (angle : R) :
  slice_matches wrap angle slice_a = wrap angle (3 * PI / 2) (PI / 2).
Proof.
  pose proof PI_RGT_0 as Hpi. rewrite slice_matches_spec.
  destruct slice_a_normalized as [-> ->].
  replace (Rltb (PI / 2) (3 * PI / 2)) with true; [reflexivity|].
  symmetry. apply Rltb_true. lra.
Qed.

Lemma slice_b_matches (wrap : R -> R -> R -> bool) (angle : R) :
  slice_matches wrap angle slice_b =
  Rgeb angle (PI / 2) && Rleb angle (3 * PI / 2).
Proof.
  pose proof PI_RGT_0 as Hpi. rewrite slice_matches_spec.
  destruct slice_b_normalized as [-> ->].
  replace (Rltb (3 * PI / 2) (PI / 2)) with false; [reflexivity|].
  symmetry. apply Rltb_false. lra.
Qed.

Lemma slice_a_neq_b : slice_a <> slice_b.
Proof. intros H. apply (f_equal slice_name) in H. discriminate H. Qed.

(** The inner part of [hit_test], once the canvas and the radius test are
    passed. *)
Lemma hit_test_inside (wrap : R -> R -> R -> bool) (c : Canvas)
  (slices : list Slice) (x y : R) :
  distance c x y <= radius c ->
  hit_test wrap (Some c) slices x y = scan wrap (pointerAngle c x y) slices.
Proof.
  intros H. unfold hit_test. apply Rgtb_false in H. rewrite H.
  destruct slices; reflexivity.
Qed.

Lemma hit_test_outside (wrap : R -> R -> R -> bool) (c : Canvas)
  (slices : list Slice) (x y : R) :
  distance c x y > radius c -> hit_test wrap (Some c) slices x y = None.
Proof.
  intros H. unfold hit_test. apply Rgtb_true in H. rewrite H.
  destruct slices; reflexivity.
Qed.

(** In the copy of [src/app/time-tracker/time-tracker-client.tsx] the wrap
    branch accepts both arms. *)
Lemma wrap_branch_both_arms (angle : R) (s : Slice) :
  normalize (endAngle s) < normalize (startAngle s) ->
  (slice_matches wrap_or angle s = true <->
   angle >= normalize (startAngle s) \/ angle <= normalize (endAngle s)).
Proof.
  intros H. rewrite slice_matches_spec. apply Rltb_true in H. rewrite H.
  apply wrap_or_true.
Qed.

(** In the copy of [src/unnamed/part_001] it accepts the first arm only. *)
Lemma wrap_branch_first_arm_only (angle : R) (s : Slice) :
  normalize (endAngle s) < normalize (startAngle s) ->
  (slice_matches Part001.wrap_nullish angle s = true <->
   angle >= normalize (startAngle s)).
Proof.
  intros H. rewrite slice_matches_spec. apply Rltb_true in H. rewrite H.
  apply wrap_nullish_true.
Qed.

(** A pie of one category: its only slice spans the whole turn, both of its
    normalized ends are 3 PI / 2, and the pointer at the centre of the canvas
    gets no slice. *)
Lemma one_category_center_missed :
  distance canvas200 100 100 < radius canvas200 /\
  getSliceAtPosition (Some canvas200) (buildSlices one_category) 100 100 = None.
Proof.
  pose proof PI_RGT_0 as Hpi.
  split; [rewrite distance_center, radius_canvas200; lra|].
  unfold getSliceAtPosition.
  rewrite hit_test_inside by (rewrite distance_center, radius_canvas200; lra).
  rewrite angle_center.
  change (buildSlices one_category) with
    [ {| startAngle := - PI / 2; endAngle := - PI / 2 + 10 / 10 * 2 * PI;
         slice_name := "a"; slice_seconds := 10; percentage := 10 / 10 * 100 |} ].
  unfold scan. cbn [find]. rewrite slice_matches_spec. cbn [startAngle endAngle].
  rewrite (normalize_neg (- PI / 2)) by lra.
  rewrite (normalize_nonneg (- PI / 2 + 10 / 10 * 2 * PI)) by lra.
  replace (Rltb (- PI / 2 + 10 / 10 * 2 * PI) (- PI / 2 + 2 * PI)) with false
    by (symmetry; apply Rltb_false; lra).
  replace (Rgeb (PI / 2) (- PI / 2 + 2 * PI)) with false; [reflexivity|].
  symmetry. unfold Rgeb. apply Rleb_false. lra.
Qed.

(** ** Claims about the hit tester *)

(** C2 as stated fails. For two categories of equal weight and the pointer at
    the centre of the canvas (strictly inside the radius), the spans of both
    slices contain the normalized pointer angle PI / 2, so there is no unique
    slice whose span contains it; the first of the two is returned. *)
Lemma center_of_two_equal_slices_matches_both :
  let slices := buildSlices two_equal in
  let angle := pointerAngle canvas200 100 100 in
  distance canvas200 100 100 < radius canvas200 /\
  slices = [slice_a; slice_b] /\ slice_a <> slice_b /\
  slice_matches wrap_or angle slice_a = true /\
  slice_matches wrap_or angle slice_b = true /\
  getSliceAtPosition (Some canvas200) slices 100 100 = Some slice_a /\
  ~ (exists s, In s slices /\ slice_matches wrap_or angle s = true /\
               forall s', In s' slices -> slice_matches wrap_or angle s' = true -> s' = s).
Proof.
  pose proof PI_RGT_0 as Hpi.
  assert (Ha : slice_matches wrap_or (pointerAngle canvas200 100 100) slice_a = true).
  { rewrite slice_a_matches, angle_center. apply wrap_or_true. right. lra. }
  assert (Hb : slice_matches wrap_or (pointerAngle canvas200 100 100) slice_b = true).
  { rewrite slice_b_matches, angle_center. apply andb_true_iff. split.
    - apply Rgeb_true. lra.
    - apply Rleb_true. lra. }
  cbv zeta. rewrite buildSlices_two_equal.
  split; [rewrite distance_center, radius_canvas200; lra|].
  split; [reflexivity|]. split; [exact slice_a_neq_b|].
  split; [exact Ha|]. split; [exact Hb|]. split.
  - unfold getSliceAtPosition.
    rewrite hit_test_inside by (rewrite distance_center, radius_canvas200; lra).
    unfold scan. cbn [find]. rewrite Ha. reflexivity.
  - intros (s & _ & _ & Huniq).
    apply slice_a_neq_b.
    rewrite (Huniq slice_a (or_introl eq_refl) Ha).
    rewrite (Huniq slice_b (or_intror (or_introl eq_refl)) Hb).
    reflexivity.
Qed.

(** C2, amended. For a non-empty aggregation with non-negative seconds in
    which no category alone makes up the total: a pointer whose distance from
    the centre exceeds the radius gets none; a pointer strictly inside the
    radius gets the first slice, in layout order, whose normalized span
    contains the normalized pointer angle, and such a slice exists. *)
Theorem getSliceAtPosition_first_match
  (c : Canvas) (entries : list AggregatedEntry) (x y : R) :
  entries <> [] ->
  Forall (fun e => (0 <= seconds e < total_seconds entries)%Z) entries ->
  let slices := buildSlices entries in
  let angle := pointerAngle c x y in
  (distance c x y > radius c ->
     getSliceAtPosition (Some c) slices x y = None) /\
  (distance c x y < radius c ->
     exists s pre post,
       slices = pre ++ s :: post /\
       getSliceAtPosition (Some c) slices x y = Some s /\
       slice_matches wrap_or angle s = true /\
       Forall (fun s' => slice_matches wrap_or angle s' = false) pre).
Proof.
  intros Hne Hall slices angle. split.
  - intros Hout. apply hit_test_outside. exact Hout.
  - intros Hin. pose proof PI_RGT_0 as Hpi.
    unfold getSliceAtPosition. rewrite hit_test_inside by lra.
    fold angle. unfold scan.
    assert (Hpos : (0 < total_seconds entries)%Z).
    { destruct entries as [|e l]; [contradiction|].
      inversion Hall; subst. lia. }
    set (total := IZR (total_seconds entries)).
    assert (Htot : 0 < total) by (apply (IZR_lt 0); exact Hpos).
    assert (Hw : Forall (fun e => 0 <= sliceAngle total e) entries).
    { rewrite Forall_forall in Hall |- *. intros e He.
      apply sliceAngle_nonneg; [exact Htot | apply Hall; exact He]. }
    pose proof (pointerAngle_range c x y) as Hrange. fold angle in Hrange.
    pose proof (angle_sum_full_turn entries Hpos) as Hturn. fold total in Hturn.
    assert (Hphi : exists phi, (phi = angle \/ phi = angle - 2 * PI) /\
                               - PI / 2 <= phi <= - PI / 2 + 2 * PI).
    { destruct (Rle_dec angle (3 * PI / 2)).
      - exists angle. split; [left; reflexivity | lra].
      - exists (angle - 2 * PI). split; [right; reflexivity | lra]. }
    destruct Hphi as (phi & Hphi & Hbounds).
    destruct (layout_cover total entries (- PI / 2) phi Hw Hne) as (s & Hs & Hspan);
      [rewrite Hturn; exact Hbounds|].
    destruct (layout_bounds total entries (- PI / 2) s Hw Hs)
      as (Hlo & Hhi & e & He & Hwidth).
    rewrite Hturn in Hhi.
    assert (Hlt : sliceAngle total e < 2 * PI).
    { apply sliceAngle_below_turn; [exact Htot|].
      rewrite Forall_forall in Hall. apply IZR_lt. apply Hall. exact He. }
    assert (Hge : 0 <= sliceAngle total e).
    { rewrite Forall_forall in Hw. apply Hw. exact He. }
    apply find_first with (a := s).
    + subst slices. rewrite buildSlices_layout. exact Hs.
    + apply (slice_matches_contains angle phi s); try lra; assumption.
Qed.

Lemma getSliceAtPosition_first_match_witness :
  two_equal <> [] /\
  Forall (fun e => (0 <= seconds e < total_seconds two_equal)%Z) two_equal /\
  distance canvas200 100 100 < radius canvas200 /\
  exists s pre post,
    buildSlices two_equal = pre ++ s :: post /\
    getSliceAtPosition (Some canvas200) (buildSlices two_equal) 100 100 = Some s /\
    slice_matches wrap_or (pointerAngle canvas200 100 100) s = true /\
    Forall (fun s' => slice_matches wrap_or (pointerAngle canvas200 100 100) s' = false) pre.
Proof.
  assert (Hne : two_equal <> []) by discriminate.
  assert (Hall : Forall (fun e => (0 <= seconds e < total_seconds two_equal)%Z) two_equal).
  { repeat constructor; simpl; lia. }
  assert (Hin : distance canvas200 100 100 < radius canvas200).
  { rewrite distance_center, radius_canvas200. lra. }
  split; [exact Hne|]. split; [exact Hall|]. split; [exact Hin|].
  exact (proj2 (getSliceAtPosition_first_match canvas200 two_equal 100 100 Hne Hall) Hin).
Defined.

(** C5 on the copy of the component in [src/unnamed/part_001]. With two
    categories of equal weight, the first slice has normalized start 3 PI / 2
    and normalized end PI / 2, so it takes the wrap branch. For the pointer
    straight above the centre the angle is 0, which is at most the end; the
    test [angle >= start ?? angle <= end] rejects the slice and the hit
    tester returns none, where the copy with [||] returns the slice. *)
Theorem part001_wrap_branch_rejects_lower_arc :
  let slices := buildSlices two_equal in
  let angle := pointerAngle canvas200 100 50 in
  distance canvas200 100 50 < radius canvas200 /\
  angle = 0 /\
  normalize (endAngle slice_a) < normalize (startAngle slice_a) /\
  angle <= normalize (endAngle slice_a) /\
  slice_matches Part001.wrap_nullish angle slice_a = false /\
  Part001.getSliceAtPosition (Some canvas200) slices 100 50 = None /\
  slice_matches wrap_or angle slice_a = true /\
  getSliceAtPosition (Some canvas200) slices 100 50 = Some slice_a.
Proof.
  pose proof PI_RGT_0 as Hpi. cbv zeta.
  rewrite buildSlices_two_equal, angle_top.
  destruct slice_a_normalized as [Hs He].
  assert (Hin : distance canvas200 100 50 <= radius canvas200)
    by (rewrite distance_top, radius_canvas200; lra).
  assert (Hna : slice_matches Part001.wrap_nullish 0 slice_a = false).
  { rewrite slice_a_matches. unfold Part001.wrap_nullish. simpl.
    unfold Rgeb. apply Rleb_false. lra. }
  assert (Hnb : forall wrap, slice_matches wrap 0 slice_b = false).
  { intros wrap. rewrite slice_b_matches. apply andb_false_iff. left.
    unfold Rgeb. apply Rleb_false. lra. }
  assert (Hya : slice_matches wrap_or 0 slice_a = true).
  { rewrite slice_a_matches. apply wrap_or_true. right. lra. }
  split; [rewrite distance_top, radius_canvas200; lra|].
  split; [reflexivity|].
  split; [rewrite Hs, He; lra|].
  split; [rewrite He; lra|].
  split; [exact Hna|]. split; [|split; [exact Hya|]].
  - unfold Part001.getSliceAtPosition. rewrite hit_test_inside by exact Hin.
    rewrite angle_top. unfold scan. cbn [find]. rewrite Hna, Hnb. reflexivity.
  - unfold getSliceAtPosition. rewrite hit_test_inside by exact Hin.
    rewrite angle_top. unfold scan. cbn [find]. rewrite Hya. reflexivity.
Qed.

(** C10. With no slices the hit tester returns none. The radius test rejects
    a pointer only when its distance from the centre exceeds the radius: at a
    distance equal to the radius (and below it) the result is that of the scan
    of the slices, and on the sample canvas the rim point (180, 100) gets the
    first of two equal slices. *)
Theorem rim_is_inside (canvas : option Canvas) (c : Canvas)
  (slices : list Slice) (x y : R) :
  getSliceAtPosition canvas [] x y = None /\
  (distance c x y = radius c ->
     getSliceAtPosition (Some c) slices x y =
     scan wrap_or (pointerAngle c x y) slices) /\
  (distance c x y <= radius c ->
     getSliceAtPosition (Some c) slices x y =
     scan wrap_or (pointerAngle c x y) slices) /\
  (distance c x y > radius c ->
     getSliceAtPosition (Some c) slices x y = None) /\
  (distance canvas200 180 100 = radius canvas200 /\
   getSliceAtPosition (Some canvas200) (buildSlices two_equal) 180 100 = Some slice_a).
Proof.
  pose proof PI_RGT_0 as Hpi.
  split; [destruct canvas; reflexivity|].
  split; [intros H; apply hit_test_inside; lra|].
  split; [intros H; apply hit_test_inside; exact H|].
  split; [intros H; apply hit_test_outside; exact H|].
  assert (Hrim : distance canvas200 180 100 = radius canvas200)
    by (rewrite distance_rim, radius_canvas200; reflexivity).
  split; [exact Hrim|].
  unfold getSliceAtPosition. rewrite hit_test_inside by lra.
  rewrite angle_rim, buildSlices_two_equal. unfold scan. cbn [find].
  replace (slice_matches wrap_or (PI / 2) slice_a) with true; [reflexivity|].
  symmetry. rewrite slice_a_matches. apply wrap_or_true. right. lra.
Qed.

Lemma rim_is_inside_witness :
  distance canvas200 180 100 = radius canvas200 /\
  getSliceAtPosition (Some canvas200) [slice_a; slice_b] 180 100 =
  scan wrap_or (pointerAngle canvas200 180 100) [slice_a; slice_b].
Proof.
  assert (Hrim : distance canvas200 180 100 = radius canvas200)
    by (rewrite distance_rim, radius_canvas200; reflexivity).
  split; [exact Hrim|].
  exact (proj1 (proj2 (rim_is_inside None canvas200 [slice_a; slice_b] 180 100)) Hrim).
Defined.

End HitTest.

(** * Further properties of the aggregator *)

Section AggregatorMore.

Lemma map_by_keys (m : OrderedMap.t) :
  NoDup (OrderedMap.keys m) ->
  m = map (fun k => (k, JS.or_default (OrderedMap.get k m) 0)) (OrderedMap.keys m).
Proof.
  induction m as [|[k0 v0] m IH]; intros Hnd; [reflexivity|].
  inversion Hnd as [|? ? Hnotin Hnd']; subst.
  cbn [OrderedMap.keys map fst OrderedMap.get]. rewrite String.eqb_refl.
  f_equal.
  - rewrite or_default_zero. reflexivity.
  - rewrite (IH Hnd') at 1. apply map_ext_in. intros k Hk.
    destruct (String.eqb_spec k k0) as [->|Hne]; [contradiction | reflexivity].
Qed.

Lemma tally_closed_form (l : list TimeEntry) :
  tally l = map (fun k => (k, sum_entry_seconds (entries_of k l)))
                (first_seen (map lowcat l)).
Proof.
  rewrite (map_by_keys (tally l) (tally_NoDup l)), keys_tally.
  apply map_ext. intros k. unfold tally. rewrite get_fold. reflexivity.
Qed.

Lemma emit_from_nth_error (m : OrderedMap.t) : forall i j,
  nth_error (emit_from i m) j =
  option_map (fun kv => {| name := fst kv; seconds := snd kv;
                           color := nth ((i + j) mod List.length colors) colors "" |})
             (nth_error m j).
Proof.
  induction m as [|kv m IH]; intros i j.
  - destruct j; reflexivity.
  - destruct j as [|j]; cbn [emit_from nth_error option_map].
    + rewrite Nat.add_0_r. reflexivity.
    + rewrite IH, Nat.add_succ_r. reflexivity.
Qed.

Lemma emit_from_length (m : OrderedMap.t) : forall i,
  List.length (emit_from i m) = List.length m.
Proof. induction m as [|kv m IH]; intros i; simpl; [|rewrite IH]; reflexivity. Qed.

Lemma aggregateEntries_names (l : list TimeEntry) :
  map name (aggregateEntries l) = first_seen (map lowcat l).
Proof. rewrite aggregateEntries_emit, emit_from_names. apply keys_tally. Qed.

Lemma aggregateEntries_length (l : list TimeEntry) :
  List.length (aggregateEntries l) = List.length (first_seen (map lowcat l)).
Proof. rewrite <- aggregateEntries_names, length_map. reflexivity. Qed.

Lemma first_seen_length (l : list string) :
  (List.length (first_seen l) <= List.length l)%nat.
Proof.
  induction l as [|x l IH]; simpl; [lia|].
  pose proof (filter_length_le (fun y => negb (String.eqb y x)) (first_seen l)). lia.
Qed.

Lemma aggregateEntries_sum (l : list TimeEntry) :
  total_seconds (aggregateEntries l) = sum_entry_seconds l.
Proof.
  rewrite total_seconds_sum, aggregateEntries_emit, emit_from_sum.
  unfold tally. rewrite sum_values_fold. reflexivity.
Qed.

(** X1. The aggregation in closed form: the output is the list
    [aggregate_spec], that is, it has one record per distinct lowercased
    category, and the record at position [i] carries the [i]-th category in
    order of first appearance, the sum of the seconds of its entries, and
    the colour [palette[i mod 12]]. *)
Theorem aggregateEntries_closed_form (dbEntries : list TimeEntry) :
  aggregateEntries dbEntries = aggregate_spec dbEntries /\
  List.length (aggregateEntries dbEntries) =
    List.length (first_seen (map (fun e => JS.toLowerCase (te_category e)) dbEntries)) /\
  (forall i k,
     nth_error (first_seen (map (fun e => JS.toLowerCase (te_category e)) dbEntries)) i = Some k ->
     nth_error (aggregateEntries dbEntries) i =
     Some {| name := k;
             seconds := sum_entry_seconds (entries_of k dbEntries);
             color := nth (i mod 12) colors "" |}).
Proof.
  assert (Hspec : aggregateEntries dbEntries = aggregate_spec dbEntries).
  { rewrite aggregateEntries_emit, tally_closed_form. reflexivity. }
  split; [exact Hspec|]. split; [apply aggregateEntries_length|].
  intros i k Hk. rewrite Hspec. unfold aggregate_spec.
  rewrite emit_from_nth_error, nth_error_map. fold lowcat.
  change (fun e => JS.toLowerCase (te_category e)) with lowcat in Hk.
  rewrite Hk. reflexivity.
Qed.

Lemma aggregateEntries_closed_form_witness :
  let l := [ mkTimeEntry 1 "Work" 60 "u" "t" "#667eea";
             mkTimeEntry 2 "Rest" 30 "u" "t" "#764ba2";
             mkTimeEntry 3 "WORK" 15 "u" "t" "#f093fb" ] in
  nth_error (first_seen (map (fun e => JS.toLowerCase (te_category e)) l)) 1 = Some "rest" /\
  nth_error (aggregateEntries l) 1 = Some (mkAggregatedEntry "rest" 30 "#764ba2").
Proof.
  intros l.
  assert (Hk : nth_error (first_seen (map (fun e => JS.toLowerCase (te_category e)) l)) 1
               = Some "rest") by reflexivity.
  split; [exact Hk|].
  exact (proj2 (proj2 (aggregateEntries_closed_form l)) 1%nat "rest" Hk).
Defined.

Lemma sum_filter_perm (f : TimeEntry -> bool) (l l' : list TimeEntry) :
  Permutation l l' ->
  sum_entry_seconds (filter f l) = sum_entry_seconds (filter f l').
Proof.
  induction 1 as [|x l l' _ IH|x y l|l l' l'' _ IH1 _ IH2]; simpl.
  - reflexivity.
  - destruct (f x); simpl; lia.
  - destruct (f x), (f y); simpl; lia.
  - lia.
Qed.

Lemma record_of_category (l : list TimeEntry) (k : string) :
  In k (map lowcat l) ->
  exists r, In r (aggregateEntries l) /\ name r = k.
Proof.
  intros Hk. apply first_seen_In in Hk. rewrite <- aggregateEntries_names in Hk.
  apply in_map_iff in Hk. destruct Hk as (r & Hname & Hin).
  exists r. split; assumption.
Qed.

(** X2. The buckets do not depend on the order of the entries: if the input
    is rearranged, every record of the one result has a record of the same
    name and the same seconds in the other (position and colour may
    change). *)
Theorem aggregateEntries_permutation (l l' : list TimeEntry) (r : AggregatedEntry) :
  Permutation l l' ->
  In r (aggregateEntries l) ->
  exists r', In r' (aggregateEntries l') /\
             name r' = name r /\ seconds r' = seconds r.
Proof.
  intros Hperm Hr.
  assert (Hk : In (name r) (map lowcat l)).
  { apply first_seen_In. rewrite <- aggregateEntries_names. apply in_map. exact Hr. }
  apply (Permutation_in _ (Permutation_map lowcat Hperm)) in Hk.
  destruct (record_of_category l' (name r) Hk) as (r' & Hr' & Hname).
  exists r'. split; [exact Hr'|]. split; [exact Hname|].
  rewrite (record_seconds l' r' Hr'), (record_seconds l r Hr), Hname.
  unfold entries_of. symmetry. apply sum_filter_perm. exact Hperm.
Qed.

Lemma aggregateEntries_permutation_witness :
  let l := [ mkTimeEntry 1 "Work" 60 "u" "t" "c"; mkTimeEntry 2 "Rest" 30 "u" "t" "c";
             mkTimeEntry 3 "WORK" 15 "u" "t" "c" ] in
  let l' := [ mkTimeEntry 2 "Rest" 30 "u" "t" "c"; mkTimeEntry 1 "Work" 60 "u" "t" "c";
              mkTimeEntry 3 "WORK" 15 "u" "t" "c" ] in
  let r := mkAggregatedEntry "work" 75 "#667eea" in
  Permutation l l' /\ In r (aggregateEntries l) /\
  exists r', In r' (aggregateEntries l') /\ name r' = name r /\ seconds r' = seconds r.
Proof.
  intros l l' r.
  assert (Hp : Permutation l l') by apply perm_swap.
  assert (Hr : In r (aggregateEntries l)) by (left; reflexivity).
  split; [exact Hp|]. split; [exact Hr|].
  exact (aggregateEntries_permutation l l' r Hp Hr).
Defined.

End AggregatorMore.

(** * From the stored entries to the renderer *)

Section AggregateRender.

Lemma aggregateEntries_nil_iff (l : list TimeEntry) :
  aggregateEntries l = [] <-> l = [].
Proof.
  split; [|intros ->; reflexivity].
  intros H. destruct l as [|e l]; [reflexivity|].
  apply (f_equal (map name)) in H. rewrite aggregateEntries_names in H.
  discriminate H.
Qed.

(** X3. There are at most as many records as entries, and none exactly when
    there is no entry; hence, with a canvas and a context at hand, the
    renderer shows the placeholder exactly when the entry list is empty. *)
Theorem placeholder_iff_no_entries
  (dbEntries : list TimeEntry) (c : Canvas) (offsetWidth : option R) :
  (List.length (aggregateEntries dbEntries) <= List.length dbEntries)%nat /\
  (aggregateEntries dbEntries = [] <-> dbEntries = []) /\
  ((exists c', renderPieChart (Some c) true offsetWidth (aggregateEntries dbEntries)
               = Placeholder c') <-> dbEntries = []).
Proof.
  split.
  { rewrite aggregateEntries_length.
    pose proof (first_seen_length (map lowcat dbEntries)) as H.
    rewrite length_map in H. exact H. }
  split; [apply aggregateEntries_nil_iff|].
  rewrite <- aggregateEntries_nil_iff. unfold renderPieChart. cbn [negb].
  destruct (aggregateEntries dbEntries) as [|r t]; cbn [List.length Nat.eqb].
  - split; [reflexivity | intros _; eexists; reflexivity].
  - split; [intros [c' H]; discriminate H | discriminate].
Qed.

Lemma sum_entry_seconds_nonneg (l : list TimeEntry) :
  Forall (fun e => 0 <= te_seconds e) l -> 0 <= sum_entry_seconds l.
Proof. induction 1 as [|e l He _ IH]; simpl; lia. Qed.

Lemma sum_entry_seconds_zero (l : list TimeEntry) :
  Forall (fun e => 0 <= te_seconds e) l ->
  (sum_entry_seconds l = 0 <-> Forall (fun e => te_seconds e = 0) l).
Proof.
  induction 1 as [|e l He Hall IH]; simpl.
  - split; [constructor | reflexivity].
  - pose proof (sum_entry_seconds_nonneg l Hall) as Hs. split.
    + intros H. constructor; [lia | apply IH; lia].
    + intros H. inversion H; subst.
      assert (sum_entry_seconds l = 0) by (apply IH; assumption). lia.
Qed.

Lemma Forall_filter {A : Type} (P : A -> Prop) (f : A -> bool) (l : list A) :
  Forall P l -> Forall P (filter f l).
Proof.
  intros H. rewrite Forall_forall in *. intros x Hx.
  apply filter_In in Hx. apply H. tauto.
Qed.

(** X4. With non-negative seconds in store, every bucket is non-negative and
    the total handed to the layout is zero exactly when every entry has zero
    seconds; so the renderer divides by a zero total exactly for a non-empty
    list of entries that all have zero seconds. *)
Theorem zero_total_iff_all_zero
  (dbEntries : list TimeEntry) (c : Canvas) (offsetWidth : option R) :
  Forall (fun e => 0 <= te_seconds e) dbEntries ->
  (forall r, In r (aggregateEntries dbEntries) -> 0 <= seconds r) /\
  (total_seconds (aggregateEntries dbEntries) = 0 <->
   Forall (fun e => te_seconds e = 0) dbEntries) /\
  ((exists c' newSlices,
      renderPieChart (Some c) true offsetWidth (aggregateEntries dbEntries)
      = Painted c' 0%R newSlices) <->
   dbEntries <> [] /\ Forall (fun e => te_seconds e = 0) dbEntries).
Proof.
  intros Hall.
  assert (Hzero : total_seconds (aggregateEntries dbEntries) = 0 <->
                  Forall (fun e => te_seconds e = 0) dbEntries).
  { rewrite aggregateEntries_sum. apply sum_entry_seconds_zero. exact Hall. }
  split.
  { intros r Hr. rewrite (record_seconds dbEntries r Hr).
    apply sum_entry_seconds_nonneg. apply Forall_filter. exact Hall. }
  split; [exact Hzero|].
  rewrite <- Hzero, <- aggregateEntries_nil_iff.
  unfold renderPieChart. cbn [negb].
  destruct (aggregateEntries dbEntries) as [|r t] eqn:E; cbn [List.length Nat.eqb].
  - split; [intros (c' & sl & H); discriminate H | intros [H _]; contradiction].
  - split.
    + intros (c' & sl & H). injection H as _ Ht _.
      split; [discriminate | apply eq_IZR; exact Ht].
    + intros [_ Ht]. rewrite Ht. do 2 eexists. reflexivity.
Qed.

Lemma zero_total_iff_all_zero_witness :
  let l := [ mkTimeEntry 1 "a" 0 "u" "t" "c"; mkTimeEntry 2 "b" 0 "u" "t" "c" ] in
  Forall (fun e => 0 <= te_seconds e) l /\
  total_seconds (aggregateEntries l) = 0.
Proof.
  intros l.
  assert (Hall : Forall (fun e => 0 <= te_seconds e) l) by (repeat constructor; simpl; lia).
  split; [exact Hall|].
  apply (proj1 (proj2 (zero_total_iff_all_zero l canvas200 None Hall))).
  repeat constructor.
Defined.

End AggregateRender.

(** * Further properties of the layout *)

Section LayoutMore.
Local Open Scope R_scope.

Lemma sum_percentages_layout (total : R) (l : list AggregatedEntry) : forall cur,
  sum_percentages (layout_from total cur l) = IZR (sum_seconds l) / total * 100.
Proof.
  induction l as [|e l IH]; intros cur; simpl.
  - lra.
  - rewrite IH, plus_IZR. lra.
Qed.

Lemma layout_from_percentage (total : R) (l : list AggregatedEntry) :
  forall cur i s e,
  nth_error (layout_from total cur l) i = Some s ->
  nth_error l i = Some e ->
  percentage s = IZR (seconds e) / total * 100.
Proof.
  induction l as [|a l IH]; intros cur i s e Hi He.
  - destruct i; discriminate.
  - destruct i as [|i]; simpl in Hi, He.
    + inversion Hi; inversion He; subst. reflexivity.
    + eapply IH; eassumption.
Qed.

Lemma nonneg_widths (l : list AggregatedEntry) (total : R) :
  0 < total ->
  Forall (fun e => (0 <= seconds e)%Z) l ->
  Forall (fun e => 0 <= sliceAngle total e) l.
Proof.
  intros Ht H. rewrite Forall_forall in *. intros e He.
  apply sliceAngle_nonneg; [exact Ht | apply H; exact He].
Qed.

Lemma seconds_le_total (l : list AggregatedEntry) (e : AggregatedEntry) :
  Forall (fun e => (0 <= seconds e)%Z) l -> In e l ->
  (seconds e <= sum_seconds l)%Z.
Proof.
  induction 1 as [|a l Ha Hall IH]; simpl; [contradiction|].
  assert (0 <= sum_seconds l)%Z.
  { clear IH. induction Hall; simpl; lia. }
  intros [->|Hin]; [lia | specialize (IH Hin); lia].
Qed.

(** X5. For a positive total and non-negative seconds, the percentage of
    each slice (before rounding) lies between 0 and 100, is its share of the
    full turn, and the percentages add up to 100. *)
Theorem percentages_add_up (entries : list AggregatedEntry) :
  (0 < total_seconds entries)%Z ->
  Forall (fun e => (0 <= seconds e)%Z) entries ->
  sum_percentages (buildSlices entries) = 100 /\
  (forall s, In s (buildSlices entries) ->
     0 <= percentage s <= 100 /\
     percentage s = slice_width s / (2 * PI) * 100).
Proof.
  intros Hpos Hall. rewrite buildSlices_layout.
  set (total := IZR (total_seconds entries)).
  assert (Ht : 0 < total) by (apply (IZR_lt 0); exact Hpos).
  pose proof PI_RGT_0 as Hpi.
  split.
  - rewrite sum_percentages_layout, <- total_seconds_sum. fold total. field. lra.
  - intros s Hs. apply In_nth_error in Hs. destruct Hs as [i Hi].
    assert (Hi' := Hi). apply layout_from_nth in Hi'.
    destruct Hi' as (e & He & _ & Hend & _ & _).
    pose proof (layout_from_percentage _ _ _ _ _ _ Hi He) as Hperc.
    apply nth_error_In in He.
    assert (Hlo : (0 <= seconds e)%Z) by (rewrite Forall_forall in Hall; apply Hall; exact He).
    assert (Hhi : (seconds e <= total_seconds entries)%Z).
    { rewrite total_seconds_sum. apply seconds_le_total; assumption. }
    apply IZR_le in Hlo, Hhi. fold total in Hhi.
    assert (Hq : 0 <= IZR (seconds e) / total <= 1).
    { split.
      - apply Rmult_le_pos; [exact Hlo | left; apply Rinv_0_lt_compat; exact Ht].
      - apply (Rmult_le_reg_r total); [exact Ht|].
        unfold Rdiv. rewrite Rmult_assoc, Rinv_l by lra. lra. }
    split; [rewrite Hperc; lra|].
    unfold slice_width. rewrite Hend, Hperc. unfold sliceAngle. field. lra.
Qed.

Lemma percentages_add_up_witness :
  (0 < total_seconds two_equal)%Z /\
  Forall (fun e => (0 <= seconds e)%Z) two_equal /\
  sum_percentages (buildSlices two_equal) = 100.
Proof.
  assert (Hpos : (0 < total_seconds two_equal)%Z) by reflexivity.
  assert (Hall : Forall (fun e => (0 <= seconds e)%Z) two_equal)
    by (repeat constructor; simpl; lia).
  split; [exact Hpos|]. split; [exact Hall|].
  exact (proj1 (percentages_add_up two_equal Hpos Hall)).
Defined.

Lemma angle_sum_firstn_mono (total : R) (l : list AggregatedEntry) : forall a b,
  Forall (fun e => 0 <= sliceAngle total e) l ->
  (a <= b)%nat ->
  angle_sum total (firstn a l) <= angle_sum total (firstn b l).
Proof.
  induction l as [|e l IH]; intros a b Hall Hab.
  - rewrite !firstn_nil. lra.
  - inversion Hall as [|? ? He Hall']; subst.
    destruct a as [|a]; destruct b as [|b]; try lia.
    + simpl. lra.
    + rewrite firstn_cons, angle_sum_cons.
      pose proof (angle_sum_nonneg total (firstn b l)) as Hn.
      assert (Forall (fun e => 0 <= sliceAngle total e) (firstn b l)).
      { rewrite Forall_forall in *. intros x Hx. apply Hall'.
        rewrite <- (firstn_skipn b l). apply in_or_app. left. exact Hx. }
      simpl. specialize (Hn H). lra.
    + rewrite !firstn_cons, !angle_sum_cons.
      specialize (IH a b Hall' ltac:(lia)). lra.
Qed.

Lemma slices_in_turn (entries : list AggregatedEntry) (s : Slice) :
  (0 < total_seconds entries)%Z ->
  Forall (fun e => (0 <= seconds e)%Z) entries ->
  In s (buildSlices entries) ->
  - PI / 2 <= startAngle s /\ startAngle s <= endAngle s /\
  endAngle s <= 3 * PI / 2.
Proof.
  intros Hpos Hall. rewrite buildSlices_layout.
  set (total := IZR (total_seconds entries)).
  assert (Ht : 0 < total) by (apply (IZR_lt 0); exact Hpos).
  pose proof PI_RGT_0 as Hpi.
  pose proof (nonneg_widths entries total Ht Hall) as Hw.
  pose proof (angle_sum_full_turn entries Hpos) as Hturn. fold total in Hturn.
  intros Hs.
  destruct (layout_bounds total entries (- PI / 2) s Hw Hs)
    as (Hlo & Hhi & e & He & Hwidth).
  rewrite Hturn in Hhi.
  assert (0 <= sliceAngle total e) by (rewrite Forall_forall in Hw; apply Hw; exact He).
  lra.
Qed.

Lemma slices_pairwise (entries : list AggregatedEntry) (i j : nat) (si sj : Slice) :
  (0 < total_seconds entries)%Z ->
  Forall (fun e => (0 <= seconds e)%Z) entries ->
  (i < j)%nat ->
  nth_error (buildSlices entries) i = Some si ->
  nth_error (buildSlices entries) j = Some sj ->
  endAngle si <= startAngle sj.
Proof.
  intros Hpos Hall Hij. rewrite buildSlices_layout.
  set (total := IZR (total_seconds entries)).
  assert (Ht : 0 < total) by (apply (IZR_lt 0); exact Hpos).
  pose proof (nonneg_widths entries total Ht Hall) as Hw.
  intros Hi Hj.
  apply layout_from_nth in Hi. destruct Hi as (ei & Hei & Hsi & Hendi & _).
  apply layout_from_nth in Hj. destruct Hj as (ej & _ & Hsj & _).
  rewrite Hendi, Hsi, Hsj.
  rewrite Rplus_assoc, <- (angle_sum_firstn_S total entries i ei Hei).
  pose proof (angle_sum_firstn_mono total entries (S i) j Hw ltac:(lia)). lra.
Qed.

(** X6. For a positive total and non-negative seconds, every slice lies in
    the turn from -PI/2 to 3 PI/2, a slice never starts before an earlier
    slice ends (slices do not overlap beyond shared boundaries), and a slice
    has zero width exactly when its category has zero seconds. *)
Theorem slices_ordered_in_turn (entries : list AggregatedEntry) :
  (0 < total_seconds entries)%Z ->
  Forall (fun e => (0 <= seconds e)%Z) entries ->
  let slices := buildSlices entries in
  (forall s, In s slices ->
     - PI / 2 <= startAngle s /\ startAngle s <= endAngle s /\
     endAngle s <= 3 * PI / 2) /\
  (forall i j si sj, (i < j)%nat ->
     nth_error slices i = Some si -> nth_error slices j = Some sj ->
     endAngle si <= startAngle sj) /\
  (forall s, In s slices -> (slice_width s = 0 <-> slice_seconds s = 0%Z)).
Proof.
  intros Hpos Hall slices. subst slices. rewrite buildSlices_layout.
  set (total := IZR (total_seconds entries)).
  assert (Ht : 0 < total) by (apply (IZR_lt 0); exact Hpos).
  pose proof PI_RGT_0 as Hpi.
  pose proof (nonneg_widths entries total Ht Hall) as Hw.
  pose proof (angle_sum_full_turn entries Hpos) as Hturn. fold total in Hturn.
  split; [|split].
  - intros s Hs.
    destruct (layout_bounds total entries (- PI / 2) s Hw Hs)
      as (Hlo & Hhi & e & He & Hwidth).
    rewrite Hturn in Hhi.
    assert (0 <= sliceAngle total e) by (rewrite Forall_forall in Hw; apply Hw; exact He).
    lra.
  - intros i j si sj Hij Hi Hj.
    apply layout_from_nth in Hi. destruct Hi as (ei & Hei & Hsi & Hendi & _).
    apply layout_from_nth in Hj. destruct Hj as (ej & _ & Hsj & _).
    rewrite Hendi, Hsi, Hsj.
    rewrite Rplus_assoc, <- (angle_sum_firstn_S total entries i ei Hei).
    pose proof (angle_sum_firstn_mono total entries (S i) j Hw ltac:(lia)). lra.
  - intros s Hs. apply In_nth_error in Hs. destruct Hs as [i Hi].
    apply layout_from_nth in Hi. destruct Hi as (e & _ & _ & Hend & _ & Hsec).
    unfold slice_width. rewrite Hend, Hsec. unfold sliceAngle. split.
    + intros H0. apply eq_IZR.
      replace (IZR (seconds e))
        with ((startAngle s + IZR (seconds e) / total * 2 * PI - startAngle s)
              * total / (2 * PI)) by (field; lra).
      rewrite H0. field. lra.
    + intros ->. field. lra.
Qed.

Lemma slices_ordered_in_turn_witness :
  (0 < total_seconds two_equal)%Z /\
  Forall (fun e => (0 <= seconds e)%Z) two_equal /\
  endAngle slice_a <= startAngle slice_b.
Proof.
  assert (Hpos : (0 < total_seconds two_equal)%Z) by reflexivity.
  assert (Hall : Forall (fun e => (0 <= seconds e)%Z) two_equal)
    by (repeat constructor; simpl; lia).
  split; [exact Hpos|]. split; [exact Hall|].
  pose proof (slices_ordered_in_turn two_equal Hpos Hall) as H. cbv zeta in H.
  destruct H as (_ & Hord & _).
  apply (Hord 0%nat 1%nat slice_a slice_b); [lia | reflexivity | reflexivity].
Defined.

End LayoutMore.

(** * Further properties of the hit tester *)

Section HitTestMore.
Local Open Scope R_scope.

Lemma hit_test_some (wrap : R -> R -> R -> bool) (canvas : option Canvas)
  (slices : list Slice) (x y : R) (s : Slice) :
  hit_test wrap canvas slices x y = Some s ->
  exists c, canvas = Some c /\ distance c x y <= radius c /\
            In s slices /\ slice_matches wrap (pointerAngle c x y) s = true.
Proof.
  unfold hit_test. destruct canvas as [c|]; [|discriminate].
  destruct (Nat.eqb (List.length slices) 0); [discriminate|].
  destruct (Rgtb (distance c x y) (radius c)) eqn:Hd; [discriminate|].
  intros H. apply find_some in H. destruct H as [Hin Hm].
  exists c. split; [reflexivity|]. split; [apply Rgtb_false; exact Hd|].
  split; assumption.
Qed.

(** A matching slice that lies in the turn from -PI/2 to 3 PI/2 contains the
    pointer angle or the pointer angle less a full turn. *)
Lemma slice_matches_span (theta : R) (s : Slice) :
  - PI / 2 <= startAngle s -> startAngle s <= endAngle s ->
  endAngle s <= 3 * PI / 2 ->
  0 <= theta < 2 * PI ->
  slice_matches wrap_or theta s = true ->
  startAngle s <= theta <= endAngle s \/
  startAngle s <= theta - 2 * PI <= endAngle s.
Proof.
  intros H1 H2 H3 Ht. pose proof PI_RGT_0 as Hpi.
  rewrite slice_matches_spec. unfold wrap_or, normalize, Rgeb, Rleb, Rltb.
  repeat match goal with
         | |- context [Rlt_dec ?a ?b] => destruct (Rlt_dec a b)
         | |- context [Rle_dec ?a ?b] => destruct (Rle_dec a b)
         end; simpl; intros Hm; try discriminate Hm; lra.
Qed.

Lemma pointerAngle_cases (c : Canvas) (x y : R) :
  let alpha := atan2 (mouseY c y - centerY c) (mouseX c x - centerX c) in
  pointerAngle c x y = alpha + PI / 2 \/
  pointerAngle c x y = alpha + PI / 2 + 2 * PI.
Proof.
  intros alpha. unfold pointerAngle. fold alpha.
  destruct (Rlt_dec (alpha + PI / 2) 0) as [Hn|Hn].
  - right. apply normalize_neg. exact Hn.
  - left. apply normalize_nonneg. lra.
Qed.

(** X7. The slice returned for a pointer is a slice whose layout span
    contains, up to whole turns, the canvas angle of the pointer advanced by
    a quarter turn. Hence, when the returned slice is narrower than a quarter
    turn, its span does not contain the canvas angle of the pointer itself:
    the pointer is not over the wedge painted for that slice. *)
Theorem returned_slice_is_a_quarter_turn_ahead
  (c : Canvas) (entries : list AggregatedEntry) (x y : R) (s : Slice) :
  (0 < total_seconds entries)%Z ->
  Forall (fun e => (0 <= seconds e)%Z) entries ->
  getSliceAtPosition (Some c) (buildSlices entries) x y = Some s ->
  let alpha := atan2 (mouseY c y - centerY c) (mouseX c x - centerX c) in
  In s (buildSlices entries) /\
  (exists k : Z,
     startAngle s <= alpha + PI / 2 + 2 * IZR k * PI <= endAngle s) /\
  (slice_width s < PI / 2 ->
   ~ exists k : Z, startAngle s <= alpha + 2 * IZR k * PI <= endAngle s).
Proof.
  intros Hpos Hall Hres alpha. pose proof PI_RGT_0 as Hpi.
  apply hit_test_some in Hres.
  destruct Hres as (c0 & Hc & _ & Hin & Hm). injection Hc as <-.
  destruct (slices_in_turn entries s Hpos Hall Hin) as (B1 & B2 & B3).
  pose proof (pointerAngle_range c x y) as Hrange.
  pose proof (slice_matches_span _ s B1 B2 B3 Hrange Hm) as Hspan.
  assert (Hk : exists k : Z,
             startAngle s <= alpha + PI / 2 + 2 * IZR k * PI <= endAngle s).
  { destruct (pointerAngle_cases c x y) as [Hp|Hp]; fold alpha in Hp;
      rewrite Hp in Hspan; destruct Hspan as [Hs|Hs].
    - exists 0%Z. lra.
    - exists (-1)%Z. lra.
    - exists 1%Z. lra.
    - exists 0%Z. lra. }
  split; [exact Hin|]. split; [exact Hk|].
  unfold slice_width. intros Hnarrow (k' & Hk').
  destruct Hk as (k & Hk).
  destruct (Z.le_gt_cases k' k) as [Hle|Hgt].
  - apply IZR_le in Hle.
    assert (IZR k' * PI <= IZR k * PI) by (apply Rmult_le_compat_r; lra).
    lra.
  - assert (Hle : (k + 1 <= k')%Z) by lia.
    apply IZR_le in Hle. rewrite plus_IZR in Hle.
    assert ((IZR k + 1) * PI <= IZR k' * PI) by (apply Rmult_le_compat_r; lra).
    lra.
Qed.

Lemma returned_slice_is_a_quarter_turn_ahead_witness :
  (0 < total_seconds two_equal)%Z /\
  Forall (fun e => (0 <= seconds e)%Z) two_equal /\
  getSliceAtPosition (Some canvas200) (buildSlices two_equal) 100 50 = Some slice_a /\
  exists k : Z,
    startAngle slice_a
    <= atan2 (mouseY canvas200 50 - centerY canvas200)
             (mouseX canvas200 100 - centerX canvas200) + PI / 2 + 2 * IZR k * PI
    <= endAngle slice_a.
Proof.
  pose proof PI_RGT_0 as Hpi.
  assert (Hpos : (0 < total_seconds two_equal)%Z) by reflexivity.
  assert (Hall : Forall (fun e => (0 <= seconds e)%Z) two_equal)
    by (repeat constructor; simpl; lia).
  assert (Hres : getSliceAtPosition (Some canvas200) (buildSlices two_equal) 100 50
                 = Some slice_a).
  { unfold getSliceAtPosition.
    rewrite hit_test_inside by (rewrite distance_top, radius_canvas200; lra).
    rewrite angle_top, buildSlices_two_equal. unfold scan. cbn [find].
    replace (slice_matches wrap_or 0 slice_a) with true; [reflexivity|].
    symmetry. rewrite slice_a_matches. apply wrap_or_true. right. lra. }
  split; [exact Hpos|]. split; [exact Hall|]. split; [exact Hres|].
  exact (proj1 (proj2 (returned_slice_is_a_quarter_turn_ahead
                         canvas200 two_equal 100 50 slice_a Hpos Hall Hres))).
Defined.

Lemma find_all_false {A : Type} (f : A -> bool) (l : list A) :
  (forall a, In a l -> f a = false) -> find f l = None.
Proof.
  intros H. destruct (find f l) as [a|] eqn:E; [|reflexivity].
  apply find_some in E. destruct E as [Hin Hf].
  rewrite (H a Hin) in Hf. discriminate Hf.
Qed.

(** X8. A chart of a single category (seconds other than zero): its one
    slice spans the whole turn, and the hit tester returns it only for a
    pointer within the radius whose normalized angle is exactly 3 PI / 2;
    every other pointer gets none. *)
Theorem single_category_hit_only_at_three_halves_pi
  (c : Canvas) (e : AggregatedEntry) (x y : R) :
  seconds e <> 0%Z ->
  (getSliceAtPosition (Some c) (buildSlices [e]) x y <> None <->
   distance c x y <= radius c /\ pointerAngle c x y = 3 * PI / 2).
Proof.
  intros Hne. pose proof PI_RGT_0 as Hpi.
  assert (Hsec : IZR (seconds e) <> 0).
  { intros H. apply Hne. apply eq_IZR. exact H. }
  assert (Hturn : - PI / 2 + IZR (seconds e) / IZR (0 + seconds e) * 2 * PI = 3 * PI / 2).
  { rewrite Z.add_0_l. field. exact Hsec. }
  assert (Hmatch : forall theta,
            slice_matches wrap_or theta
              {| startAngle := - PI / 2;
                 endAngle := - PI / 2 + IZR (seconds e) / IZR (0 + seconds e) * 2 * PI;
                 slice_name := name e; slice_seconds := seconds e;
                 percentage := IZR (seconds e) / IZR (0 + seconds e) * 100 |} = true
            <-> theta = 3 * PI / 2).
  { intros theta. rewrite slice_matches_spec. cbn [startAngle endAngle].
    rewrite Hturn, (normalize_neg (- PI / 2)) by lra.
    rewrite (normalize_nonneg (3 * PI / 2)) by lra.
    replace (Rltb (3 * PI / 2) (- PI / 2 + 2 * PI)) with false
      by (symmetry; apply Rltb_false; lra).
    rewrite andb_true_iff, Rgeb_true, Rleb_true. split; lra. }
  unfold getSliceAtPosition.
  destruct (Rle_dec (distance c x y) (radius c)) as [Hin|Hout].
  - rewrite hit_test_inside by exact Hin.
    change (buildSlices [e]) with
      [ {| startAngle := - PI / 2;
           endAngle := - PI / 2 + IZR (seconds e) / IZR (0 + seconds e) * 2 * PI;
           slice_name := name e; slice_seconds := seconds e;
           percentage := IZR (seconds e) / IZR (0 + seconds e) * 100 |} ].
    unfold scan. cbn [find].
    specialize (Hmatch (pointerAngle c x y)).
    destruct (slice_matches wrap_or (pointerAngle c x y) _) eqn:E.
    + split; [intros _; split; [exact Hin | apply Hmatch; reflexivity] | discriminate].
    + split; [intros H; contradiction H; reflexivity|].
      intros [_ H]. apply Hmatch in H. discriminate H.
  - rewrite hit_test_outside by lra.
    split; [intros H; contradiction H; reflexivity | intros [H _]; contradiction].
Qed.

Lemma single_category_hit_only_at_three_halves_pi_witness :
  seconds (mkAggregatedEntry "a" 10 "#667eea") <> 0%Z /\
  getSliceAtPosition (Some canvas200) (buildSlices one_category) 100 100 = None.
Proof.
  pose proof PI_RGT_0 as Hpi.
  assert (Hne : seconds (mkAggregatedEntry "a" 10 "#667eea") <> 0%Z) by discriminate.
  split; [exact Hne|].
  destruct (getSliceAtPosition (Some canvas200) (buildSlices one_category) 100 100)
    as [s|] eqn:E; [|reflexivity].
  exfalso.
  assert (Hsome : getSliceAtPosition (Some canvas200) (buildSlices one_category) 100 100
                  <> None) by (rewrite E; discriminate).
  apply (proj1 (single_category_hit_only_at_three_halves_pi
                  canvas200 (mkAggregatedEntry "a" 10 "#667eea") 100 100 Hne)) in Hsome.
  destruct Hsome as [_ Hangle]. rewrite angle_center in Hangle. lra.
Defined.

(** X9. The copy of the hit tester in src/unnamed/part_001: for the slice
    that crosses the angle 0 of the layout (start below 0, end at or above
    0), every pointer within the radius whose normalized angle is below the
    end of that slice gets none. *)
Theorem part001_dead_zone
  (c : Canvas) (entries : list AggregatedEntry) (x y : R) (s : Slice) :
  (0 < total_seconds entries)%Z ->
  Forall (fun e => (0 <= seconds e)%Z) entries ->
  In s (buildSlices entries) ->
  startAngle s < 0 <= endAngle s ->
  distance c x y <= radius c ->
  pointerAngle c x y < endAngle s ->
  Part001.getSliceAtPosition (Some c) (buildSlices entries) x y = None.
Proof.
  intros Hpos Hall Hs Hcross Hin Hangle. pose proof PI_RGT_0 as Hpi.
  unfold Part001.getSliceAtPosition. rewrite hit_test_inside by exact Hin.
  unfold scan. apply find_all_false. intros s' Hs'.
  pose proof (pointerAngle_range c x y) as Hrange.
  set (theta := pointerAngle c x y) in *.
  destruct (slices_in_turn entries s Hpos Hall Hs) as (A1 & A2 & A3).
  destruct (slices_in_turn entries s' Hpos Hall Hs') as (B1 & B2 & B3).
  apply In_nth_error in Hs. destruct Hs as [i Hi].
  apply In_nth_error in Hs'. destruct Hs' as [j Hj].
  assert (Hrel : endAngle s' <= startAngle s \/ s' = s \/ endAngle s <= startAngle s').
  { destruct (Nat.lt_trichotomy j i) as [Hlt|[Heq|Hgt]].
    - left. exact (slices_pairwise entries j i s' s Hpos Hall Hlt Hj Hi).
    - right. left. subst j. congruence.
    - right. right. exact (slices_pairwise entries i j s s' Hpos Hall Hgt Hi Hj). }
  rewrite slice_matches_spec.
  unfold Part001.wrap_nullish, JS.nullish, normalize, Rgeb, Rleb, Rltb.
  destruct Hrel as [Hrel|[->|Hrel]];
    repeat match goal with
           | |- context [Rlt_dec ?a ?b] => destruct (Rlt_dec a b)
           | |- context [Rle_dec ?a ?b] => destruct (Rle_dec a b)
           end; simpl; try reflexivity; exfalso; lra.
Qed.

Lemma part001_dead_zone_witness :
  (0 < total_seconds two_equal)%Z /\
  Forall (fun e => (0 <= seconds e)%Z) two_equal /\
  In slice_a (buildSlices two_equal) /\
  startAngle slice_a < 0 <= endAngle slice_a /\
  distance canvas200 100 50 <= radius canvas200 /\
  pointerAngle canvas200 100 50 < endAngle slice_a /\
  Part001.getSliceAtPosition (Some canvas200) (buildSlices two_equal) 100 50 = None.
Proof.
  pose proof PI_RGT_0 as Hpi.
  assert (Hpos : (0 < total_seconds two_equal)%Z) by reflexivity.
  assert (Hall : Forall (fun e => (0 <= seconds e)%Z) two_equal)
    by (repeat constructor; simpl; lia).
  assert (Hs : In slice_a (buildSlices two_equal)) by (left; reflexivity).
  assert (Hcross : startAngle slice_a < 0 <= endAngle slice_a)
    by (unfold slice_a; simpl; lra).
  assert (Hin : distance canvas200 100 50 <= radius canvas200)
    by (rewrite distance_top, radius_canvas200; lra).
  assert (Hangle : pointerAngle canvas200 100 50 < endAngle slice_a)
    by (rewrite angle_top; unfold slice_a; simpl; lra).
  repeat (split; [assumption|]).
  exact (part001_dead_zone canvas200 two_equal 100 50 slice_a
           Hpos Hall Hs Hcross Hin Hangle).
Defined.

(** X10. The two copies of the hit tester compared: a slice returned by the
    copy of src/unnamed/part_001 passes the test of the copy of
    time-tracker-client.tsx as well, which therefore returns a slice too
    (the same one or an earlier one). *)
Theorem part001_hits_are_hits
  (canvas : option Canvas) (slices : list Slice) (x y : R) (s : Slice) :
  Part001.getSliceAtPosition canvas slices x y = Some s ->
  exists c s',
    canvas = Some c /\
    slice_matches wrap_or (pointerAngle c x y) s = true /\
    getSliceAtPosition canvas slices x y = Some s'.
Proof.
  intros H. apply hit_test_some in H.
  destruct H as (c & -> & Hd & Hin & Hm).
  assert (Hm' : slice_matches wrap_or (pointerAngle c x y) s = true).
  { rewrite slice_matches_spec in Hm |- *.
    destruct (Rltb _ _); [|exact Hm].
    apply wrap_nullish_true in Hm. apply wrap_or_true. left. exact Hm. }
  destruct (find_first _ slices s Hin Hm') as (s' & _ & _ & _ & Hfind & _).
  exists c, s'. split; [reflexivity|]. split; [exact Hm'|].
  unfold getSliceAtPosition. rewrite hit_test_inside by exact Hd. exact Hfind.
Qed.

Lemma distance_bottom : distance canvas200 100 150 = 50.
Proof.
  unfold distance. destruct (offsets_canvas200 100 150) as [-> ->].
  replace ((100 - 100) * (100 - 100) + (150 - 100) * (150 - 100)) with (50 * 50) by lra.
  apply sqrt_square. lra.
Qed.

Lemma angle_bottom : pointerAngle canvas200 100 150 = PI.
Proof.
  pose proof PI_RGT_0 as Hpi.
  unfold pointerAngle. destruct (offsets_canvas200 100 150) as [-> ->].
  unfold atan2.
  destruct (Rlt_dec 0 (100 - 100)); [lra|].
  destruct (Rlt_dec (100 - 100) 0); [lra|].
  destruct (Rlt_dec 0 (150 - 100)); [|lra].
  rewrite normalize_nonneg; lra.
Qed.

Lemma part001_hits_are_hits_witness :
  Part001.getSliceAtPosition (Some canvas200) [slice_a; slice_b] 100 150 = Some slice_b /\
  exists c s',
    Some canvas200 = Some c /\
    slice_matches wrap_or (pointerAngle c 100 150) slice_b = true /\
    getSliceAtPosition (Some canvas200) [slice_a; slice_b] 100 150 = Some s'.
Proof.
  pose proof PI_RGT_0 as Hpi.
  assert (H : Part001.getSliceAtPosition (Some canvas200) [slice_a; slice_b] 100 150
              = Some slice_b).
  { unfold Part001.getSliceAtPosition.
    rewrite hit_test_inside by (rewrite distance_bottom, radius_canvas200; lra).
    rewrite angle_bottom. unfold scan. cbn [find].
    replace (slice_matches Part001.wrap_nullish PI slice_a) with false.
    - replace (slice_matches Part001.wrap_nullish PI slice_b) with true; [reflexivity|].
      symmetry. rewrite slice_b_matches. apply andb_true_iff.
      split; [apply Rgeb_true | apply Rleb_true]; lra.
    - symmetry. rewrite slice_a_matches. unfold Part001.wrap_nullish. simpl.
      unfold Rgeb. apply Rleb_false. lra. }
  split; [exact H|].
  exact (part001_hits_are_hits (Some canvas200) [slice_a; slice_b] 100 150 slice_b H).
Defined.

End HitTestMore.

(** * The session as a state machine *)

Module SessionFacts.
Import Timer Session.

Lemma trimEnd_head (c : ascii) (t : string) :
  JS.is_space c = false ->
  JS.trimEnd (String c t) = String c (JS.trimEnd t).
Proof.
  intros E. simpl. destruct (JS.trimEnd t); [rewrite E|]; reflexivity.
Qed.

Lemma trimEnd_idempotent (s : string) :
  JS.trimEnd (JS.trimEnd s) = JS.trimEnd s.
Proof.
  induction s as [|c t IH]; [reflexivity|].
  simpl. destruct (JS.trimEnd t) as [|c' r] eqn:E.
  - destruct (JS.is_space c) eqn:Ec; simpl; [reflexivity|].
    rewrite Ec. reflexivity.
  - change (JS.trimEnd (String c (String c' r)))
      with (match JS.trimEnd (String c' r) with
            | EmptyString => if JS.is_space c then EmptyString else String c EmptyString
            | r' => String c r'
            end).
    rewrite IH. reflexivity.
Qed.

(** [trim] yields a text without white space at either end, which a second
    [trim] leaves alone. *)
Lemma trim_idempotent (s : string) : JS.trim (JS.trim s) = JS.trim s.
Proof.
  unfold JS.trim. pose proof (TimerFacts.trimStart_head s) as H.
  destruct (JS.trimStart s) as [|c t]; [reflexivity|].
  rewrite (trimEnd_head c t H). cbn [JS.trimStart]. rewrite H.
  rewrite <- (trimEnd_head c t H). apply trimEnd_idempotent.
Qed.

Lemma consistent_mount (initialEntries : list TimeEntry) :
  consistent (mount initialEntries initial).
Proof.
  unfold consistent, mount, initial, set_fetched. cbn.
  split; [split; [discriminate | intros H; contradiction H; reflexivity]|].
  split; [discriminate | reflexivity].
Qed.

Lemma consistent_fetch (u : option (list TimeEntry)) (st : State) :
  consistent st -> consistent (fetch u st).
Proof.
  intros H. destruct u as [u|]; [|exact H].
  destruct H as (H1 & H2 & H3). unfold consistent. cbn. tauto.
Qed.

Lemma startTimer_running (st : State) (now : Z) :
  JS.trim (category st) <> EmptyString ->
  startTimer st now =
  (set_intervalRef (Some now)
     (set_isRunning true (set_elapsedSeconds 0 (set_startTime (Some now) st))),
   [SetInterval now 1000]).
Proof.
  intros H. unfold startTimer.
  destruct (negb (JS.truthy (JS.trim (category st)))) eqn:E; [|reflexivity].
  apply TimerFacts.falsy_trim in E. contradiction.
Qed.

Lemma startTimer_blank (st : State) (now : Z) :
  JS.trim (category st) = EmptyString ->
  startTimer st now = (st, [Alert "Please enter a task name!"]).
Proof.
  intros H. unfold startTimer. apply TimerFacts.falsy_trim in H. rewrite H. reflexivity.
Qed.

Lemma consistent_startTimer (st : State) (now : Z) :
  consistent st -> consistent (fst (startTimer st now)).
Proof.
  intros H.
  destruct (string_dec (JS.trim (category st)) EmptyString) as [E|E].
  - rewrite startTimer_blank by exact E. exact H.
  - rewrite startTimer_running by exact E.
    destruct H as (_ & _ & H3). unfold consistent. cbn.
    split; [split; [discriminate | reflexivity]|].
    split; [intros _; split; [exact E | reflexivity] | exact H3].
Qed.

Lemma consistent_stopTimer (userId : string) (st : State) (rnd : nat)
  (insert_error : option string) (u : option (list TimeEntry)) :
  consistent st -> consistent (fst (stopTimer userId st rnd insert_error u)).
Proof.
  intros (H1 & H2 & H3). unfold stopTimer.
  destruct (intervalRef st) as [h|] eqn:Hi;
    destruct insert_error as [err|]; destruct u as [u|];
    unfold consistent; cbn;
    (split; [split; [discriminate | intros H; contradiction H; try reflexivity]|]);
    (split; [discriminate|]); try reflexivity; try exact H3; try exact Hi.
Qed.

Lemma consistent_deleteEntry (userId : string) (st : State) (id : Z)
  (delete_error : option string) (u : option (list TimeEntry)) :
  consistent st -> consistent (fst (deleteEntry userId st id delete_error u)).
Proof.
  intros H. unfold deleteEntry. destruct delete_error; cbn [fst]; [exact H|].
  apply consistent_fetch. exact H.
Qed.

Lemma consistent_tick (st : State) (t : Z) :
  consistent st -> consistent (tick st t).
Proof.
  intros H. unfold tick. destruct (intervalRef st) as [now|] eqn:Hi; [|exact H].
  destruct H as (H1 & H2 & H3). unfold consistent, poll. cbn. tauto.
Qed.

Lemma consistent_handle (userId : string) (st : State) (ev : Event) :
  consistent st -> consistent (fst (handle userId st ev)).
Proof.
  intros H. destruct ev as [text|key now|now|rnd err u|id err u|t]; cbn [handle].
  - destruct (isRunning st) eqn:Hr; cbn [fst]; [exact H|].
    destruct H as (H1 & H2 & H3). unfold consistent. cbn.
    rewrite Hr in *. split; [exact H1|]. split; [discriminate | exact H3].
  - destruct (isRunning st); [exact H|].
    destruct (String.eqb key "Enter" && negb false); [|exact H].
    apply consistent_startTimer. exact H.
  - destruct (isRunning st); [exact H|]. apply consistent_startTimer. exact H.
  - destruct (negb (isRunning st)); [exact H|]. apply consistent_stopTimer. exact H.
  - apply consistent_deleteEntry. exact H.
  - apply consistent_tick. exact H.
Qed.

Lemma consistent_run (userId : string) (evs : list Event) : forall st,
  consistent st -> consistent (fst (run userId st evs)).
Proof.
  induction evs as [|ev evs IH]; intros st H; cbn [run]; [exact H|].
  pose proof (consistent_handle userId st ev H) as H1.
  destruct (handle userId st ev) as [st1 eff1]. cbn [fst] in H1.
  specialize (IH st1 H1). destruct (run userId st1 evs) as [st2 eff2]. exact IH.
Qed.

(** X11. Whatever the user does after the page is mounted (typing, pressing
    keys, clicking Start, Stop or Delete, with whatever answers from the
    store and whenever the interval fires), each event being handled to its
    end before the next one, the page stays consistent: the
    poll exists exactly while the session runs, a running session has a
    non-blank task name and counts from the recorded start, and the
    aggregated list is the aggregation of the list of entries shown. *)
Theorem page_stays_consistent
  (userId : string) (initialEntries : list TimeEntry) (evs : list Event) :
  let st := fst (run userId (mount initialEntries initial) evs) in
  (isRunning st = true <-> intervalRef st <> None) /\
  (isRunning st = true ->
     JS.trim (category st) <> EmptyString /\ startTime st = intervalRef st) /\
  entries st = aggregateEntries (allEntries st).
Proof.
  exact (consistent_run userId evs _ (consistent_mount initialEntries)).
Qed.

Lemma well_formed_handle (userId : string) (st : State) (ev : Event) :
  consistent st ->
  Forall (well_formed_insert userId) (snd (handle userId st ev)).
Proof.
  intros (H1 & H2 & H3).
  destruct ev as [text|key now|now|rnd err u|id err u|t]; cbn [handle].
  - destruct (isRunning st); constructor.
  - destruct (isRunning st); [constructor|].
    destruct (String.eqb key "Enter" && negb false); [|constructor].
    unfold startTimer. destruct (negb _); repeat constructor.
  - destruct (isRunning st); [constructor|].
    unfold startTimer. destruct (negb _); repeat constructor.
  - destruct (isRunning st) eqn:Hr; cbn [negb]; [|constructor].
    destruct (H2 eq_refl) as [Hcat _].
    assert (Hwf : well_formed_insert userId
                    (Insert userId (JS.trim (category st)) (elapsedSeconds st)
                            (nth rnd colors ""))).
    { cbn. split; [reflexivity|]. split; [exact Hcat | apply trim_idempotent]. }
    unfold stopTimer.
    destruct (intervalRef st); destruct err; cbn [snd app];
      repeat (constructor; try exact Hwf; try exact I).
  - unfold deleteEntry. destruct err; repeat constructor.
  - constructor.
Qed.

(** X12. Every request to store an entry that the page ever sends (events
    handled one at a time) carries the user's id and a task name that is not
    empty and has no white space at either end. *)
Theorem inserts_are_well_formed
  (userId : string) (initialEntries : list TimeEntry) (evs : list Event) :
  forall u c secs col,
    In (Insert u c secs col) (snd (run userId (mount initialEntries initial) evs)) ->
    u = userId /\ c <> EmptyString /\ JS.trim c = c.
Proof.
  assert (Hall : forall evs st, consistent st ->
            Forall (well_formed_insert userId) (snd (run userId st evs))).
  { clear evs. induction evs as [|ev evs IH]; intros st H; cbn [run]; [constructor|].
    pose proof (consistent_handle userId st ev H) as H1.
    pose proof (well_formed_handle userId st ev H) as H2.
    destruct (handle userId st ev) as [st1 eff1]. cbn [fst snd] in H1, H2.
    specialize (IH st1 H1). destruct (run userId st1 evs) as [st2 eff2].
    cbn [snd] in IH |- *. apply Forall_app. split; assumption. }
  intros u c secs col Hin.
  specialize (Hall evs _ (consistent_mount initialEntries)).
  rewrite Forall_forall in Hall. exact (Hall _ Hin).
Qed.

Lemma inserts_are_well_formed_witness :
  let evs := [ TypeText "  write report "; ClickStart 5000; Fire 6000; Fire 7000;
               ClickStop 3 None None ] in
  In (Insert "u" "write report" 2 "#4facfe") (snd (run "u" (mount [] initial) evs)) /\
  JS.trim "write report" = "write report".
Proof.
  intros evs.
  assert (Hin : In (Insert "u" "write report" 2 "#4facfe")
                   (snd (run "u" (mount [] initial) evs))).
  { vm_compute. right. right. left. reflexivity. }
  split; [exact Hin|].
  exact (proj2 (proj2 (inserts_are_well_formed "u" [] evs _ _ _ _ Hin))).
Defined.

Lemma page_stays_consistent_witness :
  let st := fst (run "u" (mount [] initial)
                   [TypeText "read"; KeyPress "Enter" 100; Fire 1100]) in
  isRunning st = true /\ intervalRef st <> None /\ startTime st = intervalRef st.
Proof.
  intros st.
  pose proof (page_stays_consistent "u" []
                [TypeText "read"; KeyPress "Enter" 100; Fire 1100]) as H.
  cbv zeta in H. fold st in H. destruct H as (H1 & H2 & _).
  assert (Hr : isRunning st = true) by reflexivity.
  split; [exact Hr|]. split; [apply H1; exact Hr | apply (H2 Hr)].
Defined.

Lemma last_default {A : Type} (l : list A) (a d d' : A) :
  last (a :: l) d = last (a :: l) d'.
Proof.
  revert a. induction l as [|b l IH]; intros a; [reflexivity|].
  change (last (b :: l) d = last (b :: l) d'). apply IH.
Qed.

Lemma last_cons_default {A : Type} (l : list A) (a d : A) :
  last (a :: l) d = last l a.
Proof.
  destruct l as [|b l]; [reflexivity|].
  change (last (b :: l) d = last (b :: l) a). apply last_default.
Qed.

(** The state after a run of firings of the poll started at [now]. *)
Lemma ticks_elapsed (now : Z) (ts : list Z) : forall st t0,
  intervalRef st = Some now ->
  elapsedSeconds st = (t0 - now) / 1000 ->
  let st' := fold_left tick ts st in
  intervalRef st' = Some now /\
  isRunning st' = isRunning st /\
  category st' = category st /\
  elapsedSeconds st' = (last ts t0 - now) / 1000.
Proof.
  induction ts as [|t ts IH]; intros st t0 Hi He; cbn [fold_left].
  - cbn. tauto.
  - assert (Ht : tick st t = poll now st t) by (unfold tick; rewrite Hi; reflexivity).
    destruct (IH (tick st t) t) as (A & B & C & D).
    + rewrite Ht. exact Hi.
    + rewrite Ht. reflexivity.
    + rewrite last_cons_default.
      split; [exact A|]. split; [rewrite B, Ht; reflexivity|].
      split; [rewrite C, Ht; reflexivity | exact D].
Qed.

(** X13. A whole session: after [startTimer] at clock reading [now] with a
    non-blank task name and any run of firings of the poll, [stopTimer]
    cancels that poll and asks the store to insert the trimmed task name
    with the seconds shown at the last firing, floor((t_last - now) / 1000),
    or 0 when the poll never fired. If no reading is earlier than [now],
    these seconds are non-negative and do not exceed the time between start
    and last firing. *)
Theorem session_stores_last_polled_seconds
  (userId : string) (st : State) (now : Z) (ts : list Z) (rnd : nat)
  (insert_error : option string) (updatedEntries : option (list TimeEntry)) :
  JS.trim (category st) <> EmptyString ->
  let running := fold_left tick ts (fst (startTimer st now)) in
  let secs := (last ts now - now) / 1000 in
  let eff := snd (stopTimer userId running rnd insert_error updatedEntries) in
  elapsedSeconds running = secs /\
  In (ClearInterval now) eff /\
  In (Insert userId (JS.trim (category st)) secs (nth rnd colors "")) eff /\
  (Forall (fun t => now <= t) ts ->
     0 <= secs /\ 1000 * secs <= last ts now - now).
Proof.
  intros Hcat. cbv zeta. rewrite (startTimer_running st now Hcat). cbn [fst].
  set (running := fold_left tick ts _).
  set (secs := (last ts now - now) / 1000).
  set (eff := snd (stopTimer userId running rnd insert_error updatedEntries)).
  destruct (ticks_elapsed now ts
              (set_intervalRef (Some now)
                 (set_isRunning true (set_elapsedSeconds 0 (set_startTime (Some now) st))))
              now eq_refl) as (Hi & _ & Hc & He).
  { cbn. rewrite Z.sub_diag. reflexivity. }
  fold running in Hi, Hc, He. cbn [category set_intervalRef set_isRunning
    set_elapsedSeconds set_startTime] in Hc.
  split; [exact He|].
  assert (Heff : In (ClearInterval now) eff /\
                 In (Insert userId (JS.trim (category st)) secs (nth rnd colors "")) eff).
  { subst eff. unfold stopTimer. rewrite Hi, Hc, He.
    destruct insert_error; cbn [snd app];
      (split; [left; reflexivity | right; left; reflexivity]). }
  split; [exact (proj1 Heff)|]. split; [exact (proj2 Heff)|].
  intros Hts.
  assert (Hlast : now <= last ts now).
  { clear -Hts. induction Hts as [|t ts Ht _ IH]; [cbn; lia|].
    rewrite last_cons_default.
    destruct ts as [|t' ts']; [exact Ht|].
    rewrite (last_default ts' t' t now). exact IH. }
  subst secs.
  pose proof (Z.div_mod (last ts now - now) 1000 ltac:(lia)) as Hd.
  pose proof (Z.mod_pos_bound (last ts now - now) 1000 ltac:(lia)) as Hb.
  split; [apply Z.div_pos; lia | lia].
Qed.

Lemma session_stores_last_polled_seconds_witness :
  JS.trim (category idle_typed) <> EmptyString /\
  In (Insert "u" "write report" 7 "#667eea")
     (snd (stopTimer "u" (fold_left tick [6000; 12999] (fst (startTimer idle_typed 5000)))
                     0 None None)).
Proof.
  assert (Hcat : JS.trim (category idle_typed) <> EmptyString) by discriminate.
  split; [exact Hcat|].
  exact (proj1 (proj2 (proj2 (session_stores_last_polled_seconds
                  "u" idle_typed 5000 [6000; 12999] 0 None None Hcat)))).
Defined.

(** X14. No poll outlives its session. In every state the page can reach
    (events handled one at a time), when the session is not running a firing of the timer changes nothing
    and the clean-up on unmount has nothing to cancel; when it is running,
    the clean-up cancels exactly the poll of the recorded start. *)
Theorem no_poll_outlives_its_session
  (userId : string) (initialEntries : list TimeEntry) (evs : list Event) :
  let st := fst (run userId (mount initialEntries initial) evs) in
  (isRunning st = false ->
     (forall t, tick st t = st) /\ unmount st = []) /\
  (isRunning st = true ->
     exists now, startTime st = Some now /\ unmount st = [ClearInterval now]).
Proof.
  intros st.
  pose proof (consistent_run userId evs _ (consistent_mount initialEntries)) as H.
  fold st in H. destruct H as (H1 & H2 & _). split.
  - intros Hr. assert (Hi : intervalRef st = None).
    { destruct (intervalRef st) eqn:E; [|reflexivity].
      assert (isRunning st = true) by (apply H1; discriminate). congruence. }
    unfold tick, unmount. rewrite Hi. split; reflexivity.
  - intros Hr. destruct (H2 Hr) as [_ Hs].
    destruct (intervalRef st) as [now|] eqn:E.
    + exists now. unfold unmount. rewrite E. split; [exact Hs | reflexivity].
    + exfalso. apply (proj1 H1 Hr). reflexivity.
Qed.

Lemma no_poll_outlives_its_session_witness :
  let st := fst (run "u" (mount [] initial)
                   [TypeText "read"; ClickStart 100; ClickStop 0 (Some "down") None]) in
  isRunning st = false /\ tick st 99999 = st /\ unmount st = [].
Proof.
  intros st.
  pose proof (no_poll_outlives_its_session "u" []
                [TypeText "read"; ClickStart 100; ClickStop 0 (Some "down") None]) as H.
  cbv zeta in H. fold st in H. destruct H as (H1 & _).
  assert (Hr : isRunning st = false) by reflexivity.
  destruct (H1 Hr) as [Ht Hu].
  split; [exact Hr|]. split; [apply Ht | exact Hu].
Defined.

(** X15. [deleteEntry] never touches the timer: whatever the store answers,
    the task name, the running flag, the elapsed seconds, the start
    timestamp, the poll and the slices are as before, and the first request
    is the delete of the given id for the user. After a successful delete
    whose refetch returns data, the entry list is that data and the
    aggregated list its aggregation; if the refetch returns no data both
    lists keep their values. *)
Theorem deleteEntry_leaves_timer_alone
  (userId : string) (st : State) (id : Z)
  (delete_error : option string) (updatedEntries : option (list TimeEntry)) :
  let st' := fst (deleteEntry userId st id delete_error updatedEntries) in
  let eff := snd (deleteEntry userId st id delete_error updatedEntries) in
  category st' = category st /\ isRunning st' = isRunning st /\
  elapsedSeconds st' = elapsedSeconds st /\ startTime st' = startTime st /\
  intervalRef st' = intervalRef st /\ slices st' = slices st /\
  hd_error eff = Some (Delete id userId) /\
  (forall u, delete_error = None -> updatedEntries = Some u ->
     allEntries st' = u /\ entries st' = aggregateEntries u /\
     total_seconds (entries st') = sum_entry_seconds u) /\
  (delete_error = None -> updatedEntries = None ->
     allEntries st' = allEntries st /\ entries st' = entries st).
Proof.
  unfold deleteEntry.
  destruct delete_error as [err|]; destruct updatedEntries as [u|]; cbn;
    repeat (split; [reflexivity|]); split; try discriminate.
  - intros u' _ H. injection H as <-.
    split; [reflexivity|]. split; [reflexivity | apply aggregateEntries_sum].
  - intros _ _. split; reflexivity.
Qed.

Lemma deleteEntry_leaves_timer_alone_witness :
  let u := [mkTimeEntry 2 "Rest" 30 "u" "t" "#764ba2"] in
  let st' := fst (deleteEntry "u" running_session 1 None (Some u)) in
  isRunning st' = true /\ elapsedSeconds st' = 5 /\
  entries st' = aggregateEntries u.
Proof.
  intros u st'.
  pose proof (deleteEntry_leaves_timer_alone "u" running_session 1 None (Some u)) as H.
  cbv zeta in H. fold st' in H.
  destruct H as (_ & Hr & He & _ & _ & _ & _ & Hf & _).
  destruct (Hf u eq_refl eq_refl) as (_ & Hagg & _).
  split; [rewrite Hr; reflexivity|]. split; [rewrite He; reflexivity | exact Hagg].
Defined.

(** X16. The slice list follows the chart only on the painting path. A
    repaint of an empty aggregated list (the placeholder) returns the state
    as it was, old slices included; with a canvas, a context and a non-empty
    list the slices become the layout of the list. So after the last entry
    is deleted and the placeholder is painted, the hit tester still works on
    the slices of the chart painted before. *)
Theorem placeholder_keeps_old_slices
  (userId : string) (canvas : option Canvas) (has_ctx : bool)
  (offsetWidth : option R) (st : State) (id : Z) :
  (entries st = [] -> repaint canvas has_ctx offsetWidth st = st) /\
  (forall c, canvas = Some c -> has_ctx = true -> entries st <> [] ->
     slices (repaint canvas has_ctx offsetWidth st) = buildSlices (entries st)) /\
  (let st' := repaint canvas has_ctx offsetWidth
                (fst (deleteEntry userId st id None (Some []))) in
   allEntries st' = [] /\ entries st' = [] /\ slices st' = slices st).
Proof.
  split; [|split].
  - intros He. unfold repaint, renderPieChart. rewrite He.
    destruct canvas; [destruct has_ctx|]; reflexivity.
  - intros c -> -> Hne. unfold repaint, renderPieChart. cbn [negb].
    destruct (entries st) as [|e l]; [contradiction | reflexivity].
  - unfold repaint, renderPieChart. cbn.
    destruct canvas; [destruct has_ctx|]; cbn; repeat split.
Qed.

Lemma placeholder_keeps_old_slices_witness :
  let st := mkState two_equal [] "" false 0 None None [slice_a; slice_b] in
  let st' := repaint (Some canvas200) true None
               (fst (deleteEntry "u" st 1 None (Some []))) in
  entries st' = [] /\
  getSliceAtPosition (Some canvas200) (slices st') 180 100 = Some slice_a.
Proof.
  intros st st'.
  destruct (placeholder_keeps_old_slices "u" (Some canvas200) true None st 1)
    as (_ & _ & H).
  cbv zeta in H. fold st' in H. destruct H as (_ & He & Hs).
  split; [exact He|]. rewrite Hs.
  pose proof PI_RGT_0 as Hpi.
  unfold getSliceAtPosition.
  rewrite hit_test_inside by (rewrite distance_rim, radius_canvas200; lra).
  rewrite angle_rim. unfold st, scan. cbn [slices find].
  replace (slice_matches wrap_or (PI / 2)%R slice_a) with true; [reflexivity|].
  symmetry. rewrite slice_a_matches. apply wrap_or_true. right. lra.
Defined.

(** X17. What can follow a stop. After a stop (from a running session)
    whose insert succeeded, the task name is cleared, so a click on Start
    only raises the validation prompt. After a stop whose insert failed, the
    Stop button is inert (the insert cannot be retried), and a click on Start
    begins a new session from zero under the same task name, so the seconds
    that were not saved are gone. *)
Theorem after_a_stop
  (userId : string) (st : State) (rnd : nat) (err : string)
  (updatedEntries : option (list TimeEntry)) (now : Z) :
  (let st' := fst (stopTimer userId st rnd None updatedEntries) in
   handle userId st' (ClickStart now) = (st', [Alert "Please enter a task name!"])) /\
  (let st' := fst (stopTimer userId st rnd (Some err) updatedEntries) in
   (forall rnd' e' u', handle userId st' (ClickStop rnd' e' u') = (st', [])) /\
   (JS.trim (category st) <> EmptyString ->
      let '(st'', eff) := handle userId st' (ClickStart now) in
      eff = [SetInterval now 1000] /\ isRunning st'' = true /\
      elapsedSeconds st'' = 0 /\ category st'' = category st)).
Proof.
  split.
  - unfold stopTimer. destruct (intervalRef st); cbn [fst handle];
      destruct updatedEntries; reflexivity.
  - cbv zeta. split.
    + intros rnd' e' u'. unfold stopTimer.
      destruct (intervalRef st); reflexivity.
    + intros Hcat.
      assert (Hst : isRunning (fst (stopTimer userId st rnd (Some err) updatedEntries)) = false
                    /\ category (fst (stopTimer userId st rnd (Some err) updatedEntries))
                       = category st).
      { unfold stopTimer. destruct (intervalRef st); split; reflexivity. }
      destruct Hst as [Hr Hc]. cbn [handle]. rewrite Hr.
      rewrite startTimer_running by (rewrite Hc; exact Hcat).
      repeat split. exact Hc.
Qed.

Lemma after_a_stop_witness :
  let st' := fst (stopTimer "u" running_session 0 (Some "down") None) in
  JS.trim (category running_session) <> EmptyString /\
  elapsedSeconds st' = 5 /\
  elapsedSeconds (fst (handle "u" st' (ClickStart 9000))) = 0.
Proof.
  intros st'.
  assert (Hcat : JS.trim (category running_session) <> EmptyString) by discriminate.
  split; [exact Hcat|]. split; [reflexivity|].
  destruct (after_a_stop "u" running_session 0 "down" None 9000) as [_ H].
  cbv zeta in H. fold st' in H. destruct H as [_ H]. specialize (H Hcat).
  destruct (handle "u" st' (ClickStart 9000)) as [st'' eff].
  destruct H as (_ & _ & He & _). exact He.
Defined.

End SessionFacts.

(** * Further properties of [formatTime] *)

Section FormatTimeMore.

Lemma length_append (a b : string) :
  String.length (a ++ b)%string = (String.length a + String.length b)%nat.
Proof. induction a as [|c a IH]; simpl; [|rewrite IH]; reflexivity. Qed.

(** Two concatenations with tails of equal length agree part by part. *)
Lemma append_inj (a a' b b' : string) :
  String.length b = String.length b' ->
  (a ++ b)%string = (a' ++ b')%string -> a = a' /\ b = b'.
Proof.
  revert a'. induction a as [|c a IH]; intros a' Hlen H; destruct a' as [|c' a'].
  - split; [reflexivity | exact H].
  - exfalso. simpl in H. apply (f_equal String.length) in H.
    simpl in H. rewrite length_append in H. lia.
  - exfalso. simpl in H. apply (f_equal String.length) in H.
    simpl in H. rewrite length_append in H. lia.
  - simpl in H. injection H as Hc Ht.
    destruct (IH a' Hlen Ht) as [-> ->]. subst. split; reflexivity.
Qed.

Lemma formatTime_nonneg (s : Z) :
  0 <= s ->
  formatTime s =
  (field2 (s / 3600) ++ ":" ++ field2 ((s mod 3600) / 60) ++ ":" ++ field2 (s mod 60))%string.
Proof.
  intros Hs. unfold formatTime, JS.floor_div, JS.rem.
  rewrite !Z.rem_mod_nonneg by lia.
  assert (0 <= s mod 3600 < 3600) by (apply Z.mod_pos_bound; lia).
  assert (0 <= s mod 60 < 60) by (apply Z.mod_pos_bound; lia).
  rewrite !padStart_field2; try reflexivity; try lia; apply Z.div_pos; lia.
Qed.

Lemma time_parts (s : Z) :
  0 <= s ->
  s = 3600 * (s / 3600) + 60 * ((s mod 3600) / 60) + s mod 60 /\
  0 <= s / 3600 /\ 0 <= (s mod 3600) / 60 < 60 /\ 0 <= s mod 60 < 60.
Proof.
  intros Hs.
  assert (Hr : 0 <= s mod 3600 < 3600) by (apply Z.mod_pos_bound; lia).
  assert (Hc : 0 <= s mod 60 < 60) by (apply Z.mod_pos_bound; lia).
  assert (Hm : 0 <= (s mod 3600) / 60 < 60).
  { split; [apply Z.div_pos; lia | apply Z.div_lt_upper_bound; lia]. }
  assert (Hh : 0 <= s / 3600) by (apply Z.div_pos; lia).
  pose proof (Z.div_mod s 3600 ltac:(lia)) as E1.
  pose proof (Z.div_mod (s mod 3600) 60 ltac:(lia)) as E2.
  assert (E3 : (s mod 3600) mod 60 = s mod 60).
  { replace (s mod 60) with ((s mod 3600 + (60 * (s / 3600)) * 60) mod 60)
      by (f_equal; lia).
    rewrite Z.mod_add by lia. reflexivity. }
  repeat split; lia.
Qed.

(** X18. Below a hundred hours the display has a fixed width: for
    0 <= s < 360000 the text of [formatTime s] is eight characters long. *)
Theorem formatTime_width (s : Z) :
  0 <= s < 360000 -> String.length (formatTime s) = 8%nat.
Proof.
  intros Hs. rewrite formatTime_nonneg by lia.
  destruct (time_parts s ltac:(lia)) as (_ & Hh & Hm & Hc).
  assert (Hh' : s / 3600 < 100) by (apply Z.div_lt_upper_bound; lia).
  rewrite !length_append. cbn [String.length].
  rewrite !field2_length_below_100 by lia. reflexivity.
Qed.

Lemma formatTime_width_witness :
  0 <= 359999 < 360000 /\ String.length (formatTime 359999) = 8%nat.
Proof.
  assert (H : 0 <= 359999 < 360000) by lia.
  split; [exact H | exact (formatTime_width 359999 H)].
Defined.

Lemma parse_String_of (n : Z) : 0 <= n -> parse_field (JS.String_of n) = Some n.
Proof.
  intros Hn. unfold parse_field, JS.String_of.
  destruct n as [|p|p]; [reflexivity| |lia].
  rewrite NilZero.isi.
  - cbn [option_map]. f_equal. apply DecimalZ.of_to.
  - cbn. intros H. injection H as H.
    exact (DecimalPos.Unsigned.to_uint_nonnil p H).
  - discriminate.
Qed.

(** A field reads back as the number it was written from. *)
Lemma parse_field2 (n : Z) : 0 <= n -> parse_field (field2 n) = Some n.
Proof.
  intros Hn. unfold field2. destruct (Z.ltb_spec n 10) as [Hlt|Hge].
  - assert (Hall : forallb (fun k =>
                      match parse_field (String "0" (String (digit (Z.of_nat k)) EmptyString)) with
                      | Some v => Z.eqb v (Z.of_nat k)
                      | None => false
                      end) (seq 0 10) = true) by (vm_compute; reflexivity).
    rewrite forallb_forall in Hall. specialize (Hall (Z.to_nat n)).
    rewrite Z2Nat.id in Hall by lia.
    destruct (parse_field _) as [v|]; [|discriminate Hall; apply in_seq; lia].
    f_equal. apply Z.eqb_eq, Hall, in_seq. lia.
  - apply parse_String_of. exact Hn.
Qed.

Lemma field2_inj (a b : Z) : 0 <= a -> 0 <= b -> field2 a = field2 b -> a = b.
Proof.
  intros Ha Hb H. apply (f_equal parse_field) in H.
  rewrite !parse_field2 in H by assumption. congruence.
Qed.

(** X19. Different durations are displayed differently: on non-negative
    counts of seconds [formatTime] is injective. *)
Theorem formatTime_injective (s1 s2 : Z) :
  0 <= s1 -> 0 <= s2 -> formatTime s1 = formatTime s2 -> s1 = s2.
Proof.
  intros H1 H2 H.
  rewrite (formatTime_nonneg s1 H1), (formatTime_nonneg s2 H2) in H.
  destruct (time_parts s1 H1) as (E1 & Hh1 & Hm1 & Hc1).
  destruct (time_parts s2 H2) as (E2 & Hh2 & Hm2 & Hc2).
  apply append_inj in H.
  2:{ cbn [append String.length]. rewrite !length_append. cbn [String.length].
      rewrite !field2_length_below_100 by lia. reflexivity. }
  destruct H as [Hh H]. injection H as H.
  apply append_inj in H.
  2:{ cbn [append String.length]. rewrite !field2_length_below_100 by lia. reflexivity. }
  destruct H as [Hm H]. injection H as Hc.
  apply field2_inj in Hh, Hm, Hc; lia.
Qed.

Lemma formatTime_injective_witness :
  0 <= 3661 /\ 0 <= 3662 /\ formatTime 3661 <> formatTime 3662.
Proof.
  split; [lia|]. split; [lia|].
  intros H. pose proof (formatTime_injective 3661 3662 ltac:(lia) ltac:(lia) H). lia.
Defined.

End FormatTimeMore.

(** * The read-only view *)

Section ReadOnlyFacts.

Lemma cm_get_set (k k' v : string) (m : ReadOnly.ColorMap) :
  ReadOnly.cm_get k' (ReadOnly.cm_set k v m) =
  if String.eqb k' k then Some v else ReadOnly.cm_get k' m.
Proof.
  induction m as [|[k0 v0] m IH]; simpl.
  - reflexivity.
  - destruct (String.eqb_spec k k0) as [->|Hk]; simpl.
    + destruct (String.eqb k' k0); reflexivity.
    + rewrite IH. destruct (String.eqb_spec k' k0) as [->|Hk'].
      * destruct (String.eqb_spec k0 k); congruence.
      * reflexivity.
Qed.

Lemma colorMap_frame (k : string) (l : list AggregatedEntry) : forall m,
  ~ In k (map name l) ->
  ReadOnly.cm_get k (fold_left (fun m entry => ReadOnly.cm_set (name entry) (color entry) m) l m)
  = ReadOnly.cm_get k m.
Proof.
  induction l as [|a l IH]; intros m Hk; cbn [fold_left]; [reflexivity|].
  rewrite IH by (intros H; apply Hk; right; exact H).
  rewrite cm_get_set.
  destruct (String.eqb_spec k (name a)) as [->|Hne]; [|reflexivity].
  exfalso. apply Hk. left. reflexivity.
Qed.

Lemma colorMap_lookup (l : list AggregatedEntry) (r : AggregatedEntry) : forall m,
  NoDup (map name l) -> In r l ->
  ReadOnly.cm_get (name r)
    (fold_left (fun m entry => ReadOnly.cm_set (name entry) (color entry) m) l m)
  = Some (color r).
Proof.
  induction l as [|a l IH]; intros m Hnd Hin; [contradiction|].
  inversion Hnd as [|? ? Hnotin Hnd']; subst. cbn [fold_left].
  destruct Hin as [->|Hin].
  - rewrite colorMap_frame by exact Hnotin.
    rewrite cm_get_set, String.eqb_refl. reflexivity.
  - apply IH; assumption.
Qed.

(** X20. In the read-only view, once the aggregation of the entries is in
    place, the colour shown beside an entry of the list is the colour of the
    pie slice of its lowercased category, a palette colour, and never the
    fall-back; before the aggregation is in place every entry gets the
    fall-back colour. *)
Theorem getColorForEntry_is_slice_colour (dbEntries : list TimeEntry) :
  (forall e, In e dbEntries ->
     exists r, In r (aggregateEntries dbEntries) /\
               name r = JS.toLowerCase (te_category e) /\
               ReadOnly.getColorForEntry (aggregateEntries dbEntries) (te_category e)
               = color r /\
               In (color r) colors) /\
  (forall cat, ReadOnly.getColorForEntry [] cat = "#667eea").
Proof.
  split; [|reflexivity].
  intros e He.
  destruct (record_of_category dbEntries (lowcat e)) as (r & Hr & Hname).
  { apply in_map. exact He. }
  exists r. split; [exact Hr|]. split; [exact Hname|]. split.
  - unfold ReadOnly.getColorForEntry, ReadOnly.colorMap.
    fold (lowcat e). rewrite <- Hname.
    rewrite colorMap_lookup; [reflexivity | | exact Hr].
    rewrite aggregateEntries_names. apply first_seen_NoDup.
  - apply In_nth_error in Hr. destruct Hr as [i Hi].
    rewrite aggregateEntries_emit in Hi. apply emit_from_nth in Hi.
    rewrite Hi. apply nth_In. apply Nat.mod_upper_bound. discriminate.
Qed.

Lemma getColorForEntry_is_slice_colour_witness :
  let l := [ mkTimeEntry 1 "Work" 60 "u" "t" "x"; mkTimeEntry 2 "Rest" 30 "u" "t" "x";
             mkTimeEntry 3 "WORK" 15 "u" "t" "x" ] in
  In (mkTimeEntry 3 "WORK" 15 "u" "t" "x") l /\
  exists r, In r (aggregateEntries l) /\ name r = "work" /\
            ReadOnly.getColorForEntry (aggregateEntries l) "WORK" = color r.
Proof.
  intros l.
  assert (Hin : In (mkTimeEntry 3 "WORK" 15 "u" "t" "x") l)
    by (right; right; left; reflexivity).
  split; [exact Hin|].
  destruct (proj1 (getColorForEntry_is_slice_colour l) _ Hin) as (r & H1 & H2 & H3 & _).
  exists r. split; [exact H1|]. split; [exact H2 | exact H3].
Defined.

Local Open Scope R_scope.

Lemma leaders_fold (c : Canvas) (total : R) (l : list AggregatedEntry) :
  forall cur acc L,
  In L (snd (fold_left (ReadOnly.leader_step c total) l (cur, acc))) ->
  In L acc \/ exists a w, L = ReadOnly.leader c a w.
Proof.
  induction l as [|e l IH]; intros cur acc L H; cbn [fold_left] in H.
  - left. exact H.
  - cbn [ReadOnly.leader_step] in H. apply IH in H. destruct H as [H|H]; [|right; exact H].
    apply in_app_or in H. destruct H as [H|[<-|[]]]; [left; exact H|].
    right. eexists. eexists. reflexivity.
Qed.

Lemma leaders_length (c : Canvas) (total : R) (l : list AggregatedEntry) :
  forall cur acc,
  List.length (snd (fold_left (ReadOnly.leader_step c total) l (cur, acc))) =
  (List.length acc + List.length l)%nat.
Proof.
  induction l as [|e l IH]; intros cur acc; cbn [fold_left].
  - cbn. lia.
  - cbn [ReadOnly.leader_step]. rewrite IH, length_app. cbn. lia.
Qed.

(** X21. The leader lines of the read-only chart, on a square canvas and
    for a positive total (so that every angle is a number): there is one per
    category; each starts on the circle of the pie and ends 1.2 radii from
    the centre, inside the canvas; the label is anchored at the height of
    that end, 10 to its right or 10 to its left; it is to the right when the
    leader leaves the pie right of the centre and to the left when it leaves
    the pie left of the centre. (Nothing is said of the side of a leader that
    leaves the pie straight above or below the centre, where the sign of the
    cosine computed in floating point decides.) *)
Theorem leaders_stay_in_canvas (c : Canvas) (aggregatedEntries : list AggregatedEntry) :
  width c = height c -> 0 <= width c ->
  (0 < total_seconds aggregatedEntries)%Z ->
  List.length (ReadOnly.leaders c aggregatedEntries) = List.length aggregatedEntries /\
  (forall L, In L (ReadOnly.leaders c aggregatedEntries) ->
     let r := ReadOnly.radius c in
     let dist2 px py := (px - centerX c) * (px - centerX c)
                        + (py - centerY c) * (py - centerY c) in
     dist2 (ReadOnly.edgeX L) (ReadOnly.edgeY L) = r * r /\
     dist2 (ReadOnly.lineX L) (ReadOnly.lineY L) = (12 / 10 * r) * (12 / 10 * r) /\
     0 <= ReadOnly.lineX L <= width c /\
     0 <= ReadOnly.lineY L <= height c /\
     ReadOnly.labelY L = ReadOnly.lineY L /\
     (ReadOnly.labelX L = ReadOnly.lineX L + 10 \/
      ReadOnly.labelX L = ReadOnly.lineX L - 10) /\
     (centerX c < ReadOnly.edgeX L ->
        ReadOnly.isRightSide L = true /\
        ReadOnly.labelX L = ReadOnly.lineX L + 10 /\ centerX c < ReadOnly.labelX L) /\
     (ReadOnly.edgeX L < centerX c ->
        ReadOnly.isRightSide L = false /\
        ReadOnly.labelX L = ReadOnly.lineX L - 10 /\ ReadOnly.labelX L < centerX c)).
Proof.
  intros Hsq Hw _. split.
  { unfold ReadOnly.leaders. rewrite leaders_length. reflexivity. }
  intros L HL. unfold ReadOnly.leaders in HL. apply leaders_fold in HL.
  destruct HL as [[]|(a & w & ->)].
  cbv zeta. unfold ReadOnly.leader.
  cbn [ReadOnly.edgeX ReadOnly.edgeY ReadOnly.lineX ReadOnly.lineY
       ReadOnly.labelX ReadOnly.labelY ReadOnly.isRightSide].
  set (m := a + w / 2).
  assert (Hr : ReadOnly.radius c = width c * (3 / 10)).
  { unfold ReadOnly.radius, centerX, centerY, Rmin. rewrite <- Hsq.
    destruct (Rle_dec (width c / 2) (width c / 2)); lra. }
  rewrite Hr. unfold centerX, centerY. rewrite <- Hsq.
  pose proof (sin2_cos2 m) as Hsc. unfold Rsqr in Hsc.
  pose proof (COS_bound m) as Hcos. pose proof (SIN_bound m) as Hsin.
  set (cm := cos m) in *. set (sm := sin m) in *. set (W := width c) in *.
  clearbody cm sm W.
  assert (Hc1 : - W <= cm * W <= W) by nra.
  assert (Hs1 : - W <= sm * W <= W) by nra.
  split.
  { match goal with |- ?lhs = _ =>
      replace lhs with ((W * (3 / 10)) * (W * (3 / 10)) * (sm * sm + cm * cm))
        by field end.
    rewrite Hsc. field. }
  split.
  { match goal with |- ?lhs = _ =>
      replace lhs with ((12 / 10 * (W * (3 / 10))) * (12 / 10 * (W * (3 / 10)))
                        * (sm * sm + cm * cm)) by field end.
    rewrite Hsc. field. }
  split; [lra|]. split; [lra|]. split; [reflexivity|].
  unfold Rgtb, Rltb.
  split; [destruct (Rlt_dec 0 cm); [left; reflexivity | right; lra]|].
  split; intros Hside.
  - assert (Hpos : 0 < cm) by nra.
    destruct (Rlt_dec 0 cm) as [_|Hn]; [|contradiction].
    split; [reflexivity|]. split; [reflexivity|].
    assert (0 <= cm * W) by nra. lra.
  - assert (Hneg : cm < 0) by nra.
    destruct (Rlt_dec 0 cm) as [Hp|_]; [lra|].
    split; [reflexivity|]. split; [lra|].
    assert (cm * W <= 0) by nra. lra.
Qed.

Lemma leaders_stay_in_canvas_witness :
  width canvas200 = height canvas200 /\ 0 <= width canvas200 /\
  (0 < total_seconds two_equal)%Z /\
  List.length (ReadOnly.leaders canvas200 two_equal) = 2%nat.
Proof.
  assert (Hsq : width canvas200 = height canvas200) by reflexivity.
  assert (Hw : 0 <= width canvas200) by (cbn; lra).
  assert (Hpos : (0 < total_seconds two_equal)%Z) by reflexivity.
  split; [exact Hsq|]. split; [exact Hw|]. split; [exact Hpos|].
  exact (proj1 (leaders_stay_in_canvas canvas200 two_equal Hsq Hw Hpos)).
Defined.

End ReadOnlyFacts.

(** * The names of the buckets *)

Section BucketNames.

Lemma lower_ascii_idempotent (c : ascii) :
  JS.lower_ascii (JS.lower_ascii c) = JS.lower_ascii c.
Proof.
  destruct c as [b0 b1 b2 b3 b4 b5 b6 b7].
  destruct b0, b1, b2, b3, b4, b5, b6, b7; reflexivity.
Qed.

Lemma toLowerCase_idempotent (s : string) :
  JS.toLowerCase (JS.toLowerCase s) = JS.toLowerCase s.
Proof.
  induction s as [|c t IH]; simpl; [reflexivity|].
  rewrite lower_ascii_idempotent, IH. reflexivity.
Qed.

(** X22. No bucket is empty and every bucket is named in lower case: the
    name of each record is the lowercased category of at least one input
    entry, and lowercasing it again changes nothing (the chart shows
    [write report] where the user typed [Write Report]). *)
Theorem buckets_are_named_after_entries (dbEntries : list TimeEntry) (r : AggregatedEntry) :
  In r (aggregateEntries dbEntries) ->
  (exists e, In e dbEntries /\ name r = JS.toLowerCase (te_category e)) /\
  entries_of (name r) dbEntries <> [] /\
  JS.toLowerCase (name r) = name r.
Proof.
  intros Hr.
  assert (Hk : In (name r) (map lowcat dbEntries)).
  { apply first_seen_In. rewrite <- aggregateEntries_names. apply in_map. exact Hr. }
  apply in_map_iff in Hk. destruct Hk as (e & He & Hin).
  split; [exists e; split; [exact Hin | symmetry; exact He]|].
  split.
  - intros Hnil.
    assert (Hf : In e (entries_of (name r) dbEntries)).
    { unfold entries_of. apply filter_In. split; [exact Hin|].
      apply String.eqb_eq. exact He. }
    rewrite Hnil in Hf. contradiction.
  - rewrite <- He. unfold lowcat. apply toLowerCase_idempotent.
Qed.

Lemma buckets_are_named_after_entries_witness :
  let l := [ mkTimeEntry 1 "Write Report" 60 "u" "t" "x" ] in
  let r := mkAggregatedEntry "write report" 60 "#667eea" in
  In r (aggregateEntries l) /\ JS.toLowerCase (name r) = name r.
Proof.
  intros l r.
  assert (Hr : In r (aggregateEntries l)) by (left; reflexivity).
  split; [exact Hr|].
  exact (proj2 (proj2 (buckets_are_named_after_entries l r Hr))).
Defined.

End BucketNames.
